(** * DariX: a shallow embedding of the C++ interpreter

    The development follows the C++ sources of the DariX scripting language:
    - [token.h], [lexer.cpp]       : tokens and the scanner ([Module Lexer]);
    - [ast.h]                      : expression and statement trees;
    - [object.h], [object.cpp]     : runtime objects;
    - [environment.cpp]            : scope frames linked by [enclosing_];
    - [builtins.cpp]               : the native functions;
    - [interpreter.cpp]            : the tree-walking evaluator.

    Objects held through [std::shared_ptr] and mutated in place (scope frames,
    instances) live in stores indexed by an address; C++ exceptions are an
    explicit outcome next to the interpreter state that survives the throw. *)

From Stdlib Require Import ZArith PrimFloat FloatOps SpecFloat Uint63 Ascii String.
From stdpp Require Import gmap strings list pretty.

#[local] Set Warnings "-register-all".
#[local] Open Scope Z_scope.

(** ** token.h *)

Inductive TokenType :=
  (* Keywords *)
  | CLASS | FUNC | VAR | IF | ELSE | WHILE | FOR | RETURN | TRY | CATCH | FINALLY
  | TRUE | FALSE | NULL
  (* Operators *)
  | PLUS | MINUS | MULTIPLY | DIVIDE | MODULO
  | EQUAL | EQUAL_EQUAL | BANG | BANG_EQUAL
  | LESS | LESS_EQUAL | GREATER | GREATER_EQUAL
  | AND | OR | NOT
  (* Delimiters *)
  | LEFT_PAREN | RIGHT_PAREN | LEFT_BRACE | RIGHT_BRACE
  | LEFT_BRACKET | RIGHT_BRACKET | COMMA | DOT | SEMICOLON
  | COLON
  (* Literals *)
  | IDENTIFIER | STRING | NUMBER
  (* Special *)
  | EOF_TOKEN.

#[global] Instance TokenType_eq_dec : EqDecision TokenType.
Proof. solve_decision. Defined.

Record Token := mkToken {
  type : TokenType;
  lexeme : string;
  line : Z;
  column : Z
}.

(** ** lexer.h, lexer.cpp *)

Module Lexer.

(** The private fields of the [Lexer] class.  [line_] and [column_] are
    [int]s, as are the line and the column of a token; they are numbers
    here, which is what the code computes as long as no [++] overflows: on
    sources of less than 2^31 - 1 characters, since neither counter exceeds
    the number of characters consumed by more than one ([line_ok],
    [counters_ok]). *)
Record t := mk {
  source_ : string;
  tokens_ : list Token;
  start_ : nat;
  current_ : nat;
  line_ : Z;
  column_ : Z
}.

(** [Lexer::Lexer] *)
Definition new (source : string) : t := mk source [] 0%nat 0%nat 1 1.

Definition keywords : gmap string TokenType :=
  list_to_map
    [("class", CLASS); ("func", FUNC); ("var", VAR); ("if", IF); ("else", ELSE);
     ("while", WHILE); ("for", FOR); ("return", RETURN); ("try", TRY);
     ("catch", CATCH); ("finally", FINALLY); ("true", TRUE); ("false", FALSE);
     ("null", NULL)].

Definition nul : ascii := ascii_of_nat 0.

(** [source_[i]]; at [i = size()] a C++ string yields the null character. *)
Definition at_ (lx : t) (i : nat) : ascii := default nul (String.get i (source_ lx)).

Definition isAtEnd (lx : t) : bool := (String.length (source_ lx) <=? current_ lx)%nat.

(** [advance] returns [source_[current_++]] after [column_++]. *)
Definition advance (lx : t) : ascii * t :=
  (at_ lx (current_ lx),
   mk (source_ lx) (tokens_ lx) (start_ lx) (S (current_ lx)) (line_ lx) (column_ lx + 1)).

Definition peek (lx : t) : ascii :=
  if isAtEnd lx then nul else at_ lx (current_ lx).

Definition peekNext (lx : t) : ascii :=
  if (String.length (source_ lx) <=? current_ lx + 1)%nat then nul
  else at_ lx (current_ lx + 1).

(** [Lexer::match] *)
Definition match_ (expected : ascii) (lx : t) : bool * t :=
  if isAtEnd lx then (false, lx)
  else if negb (Ascii.eqb (at_ lx (current_ lx)) expected) then (false, lx)
  else (true, mk (source_ lx) (tokens_ lx) (start_ lx) (S (current_ lx))
                 (line_ lx) (column_ lx + 1)).

Definition push (tk : Token) (lx : t) : t :=
  mk (source_ lx) (tokens_ lx ++ [tk]) (start_ lx) (current_ lx) (line_ lx) (column_ lx).

(** [addToken(type, literal)] *)
Definition addTokenLiteral (ty : TokenType) (literal : string) (lx : t) : t :=
  push (mkToken ty literal (line_ lx)
                (column_ lx - Z.of_nat (current_ lx - start_ lx))) lx.

(** [addToken(type)] *)
Definition addToken (ty : TokenType) (lx : t) : t :=
  addTokenLiteral ty (substring (start_ lx) (current_ lx - start_ lx) (source_ lx)) lx.

Definition isDigit (c : ascii) : bool :=
  let n := N_of_ascii c in ((48 <=? n) && (n <=? 57))%N.

Definition isAlpha (c : ascii) : bool :=
  let n := N_of_ascii c in
  (((97 <=? n) && (n <=? 122)) || ((65 <=? n) && (n <=? 90)) || (n =? 95))%N.

Definition isAlphaNumeric (c : ascii) : bool := isAlpha c || isDigit c.

Definition identifierType (identifier : string) : TokenType :=
  default IDENTIFIER (keywords !! identifier).

(** A [while] loop of the scanner.  Every loop of [lexer.cpp] consumes a
    character per iteration and stops at the end of the source, so
    [String.length source_] iterations are enough: see [while_stops]. *)
Fixpoint while (fuel : nat) (cond : t → bool) (body : t → t) (lx : t) : t :=
  match fuel with
  | O => lx
  | S n => if cond lx then while n cond body (body lx) else lx
  end.

Definition loop (cond : t → bool) (body : t → t) (lx : t) : t :=
  while (String.length (source_ lx)) cond body lx.

Definition set_line (l : Z) (lx : t) : t :=
  mk (source_ lx) (tokens_ lx) (start_ lx) (current_ lx) l (column_ lx).

Definition newline_char : ascii := ascii_of_nat 10.
Definition quote_char : ascii := ascii_of_nat 34.

(** [Lexer::string]: at the end of the source the method returns without a
    token. *)
Definition string_ (lx : t) : t :=
  let lx := loop (fun lx => negb (Ascii.eqb (peek lx) quote_char) && negb (isAtEnd lx))
                 (fun lx =>
                    let lx := if Ascii.eqb (peek lx) newline_char
                              then set_line (line_ lx + 1) lx else lx in
                    snd (advance lx))
                 lx in
  if isAtEnd lx then lx  (* Unterminated string error *)
  else
    let lx := snd (advance lx) in
    let value := substring (start_ lx + 1) (current_ lx - start_ lx - 2) (source_ lx) in
    addTokenLiteral STRING value lx.

(** [Lexer::number] *)
Definition number (lx : t) : t :=
  let digits := loop (fun lx => isDigit (peek lx)) (fun lx => snd (advance lx)) in
  let lx := digits lx in
  let lx := if Ascii.eqb (peek lx) "."%char && isDigit (peekNext lx)
            then digits (snd (advance lx)) else lx in
  let value := substring (start_ lx) (current_ lx - start_ lx) (source_ lx) in
  addTokenLiteral NUMBER value lx.

(** [Lexer::identifier] *)
Definition identifier (lx : t) : t :=
  let lx := loop (fun lx => isAlphaNumeric (peek lx)) (fun lx => snd (advance lx)) lx in
  let text := substring (start_ lx) (current_ lx - start_ lx) (source_ lx) in
  addToken (identifierType text) lx.

Definition two (c : ascii) (yes no : TokenType) (lx : t) : t :=
  let '(b, lx) := match_ c lx in addToken (if b then yes else no) lx.

(** [Lexer::scanToken] *)
Definition scanToken (lx : t) : t :=
  let '(c, lx) := advance lx in
  match c with
  | "("%char => addToken LEFT_PAREN lx
  | ")"%char => addToken RIGHT_PAREN lx
  | "{"%char => addToken LEFT_BRACE lx
  | "}"%char => addToken RIGHT_BRACE lx
  | "["%char => addToken LEFT_BRACKET lx
  | "]"%char => addToken RIGHT_BRACKET lx
  | ","%char => addToken COMMA lx
  | "."%char => addToken DOT lx
  | ";"%char => addToken SEMICOLON lx
  | ":"%char => addToken COLON lx
  | "+"%char => addToken PLUS lx
  | "*"%char => addToken MULTIPLY lx
  | "/"%char =>
      let '(b, lx) := match_ "/"%char lx in
      if b
      then loop (fun lx => negb (Ascii.eqb (peek lx) newline_char) && negb (isAtEnd lx))
                (fun lx => snd (advance lx)) lx
      else addToken DIVIDE lx
  | "%"%char => addToken MODULO lx
  | "-"%char => addToken MINUS lx
  | "!"%char => two "="%char BANG_EQUAL BANG lx
  | "="%char => two "="%char EQUAL_EQUAL EQUAL lx
  | "<"%char => two "="%char LESS_EQUAL LESS lx
  | ">"%char => two "="%char GREATER_EQUAL GREATER lx
  | "&"%char => let '(b, lx) := match_ "&"%char lx in if b then addToken AND lx else lx
  | "|"%char => let '(b, lx) := match_ "|"%char lx in if b then addToken OR lx else lx
  | " "%char | "013"%char | "009"%char => lx  (* Ignore whitespace *)
  | "010"%char =>
      mk (source_ lx) (tokens_ lx) (start_ lx) (current_ lx) (line_ lx + 1) 1
  | _ =>
      if Ascii.eqb c quote_char then string_ lx
      else if isDigit c then number lx
      else if isAlpha c then identifier lx
      else lx  (* Error handling would go here *)
  end.

(** [Lexer::scanTokens] *)
Definition scanTokens (lx : t) : list Token :=
  let lx := loop (fun lx => negb (isAtEnd lx))
                 (fun lx =>
                    scanToken (mk (source_ lx) (tokens_ lx) (current_ lx) (current_ lx)
                                  (line_ lx) (column_ lx)))
                 lx in
  tokens_ lx ++ [mkToken EOF_TOKEN "" (line_ lx) (column_ lx)].

(** The scanner's whole interface: the tokens of a source text.  There is no
    other result: no error value, no exception. *)
Definition scan (source : string) : list Token := scanTokens (new source).

(** [lx'] is a later state of the scan of the same source. *)
Definition later (lx lx' : t) : Prop :=
  source_ lx' = source_ lx ∧ (current_ lx ≤ current_ lx')%nat.

(** The number of newline characters among the first [n] of [s]. *)
Fixpoint newlines_before (n : nat) (s : string) : Z :=
  match n, s with
  | S n', String c r => (if Ascii.eqb c newline_char then 1 else 0) + newlines_before n' r
  | _, _ => 0
  end.

(** The line counter is one more than the newlines consumed so far. *)
Definition line_ok (lx : t) : Prop :=
  line_ lx = 1 + newlines_before (current_ lx) (source_ lx).

(** The scanner is within the source, and the column counter is at most one
    more than the number of characters consumed. *)
Definition counters_ok (lx : t) : Prop :=
  (current_ lx ≤ String.length (source_ lx))%nat
  ∧ 1 <= column_ lx <= 1 + Z.of_nat (current_ lx).

(** [lx'] has the tokens of [lx] and at most one more, which is not the
    end-of-input token. *)
Definition emits (lx lx' : t) : Prop :=
  tokens_ lx' = tokens_ lx
  ∨ ∃ tk, tokens_ lx' = tokens_ lx ++ [tk] ∧ type tk ≠ EOF_TOKEN.

End Lexer.

(** ** ast.h

    [LiteralExpr] keeps the text of the literal, [NumberExpr] a double.  The
    methods of a [ClassDecl] are [FuncDecl] nodes, kept as their three
    fields. *)

Inductive Expr :=
  | LiteralExpr (value_ : string)
  | NumberExpr (value_ : float)
  | StringExpr (value_ : string)
  | BoolExpr (value_ : bool)
  | NullExpr
  | VariableExpr (name_ : string)
  | BinaryExpr (left_ : Expr) (op_ : Token) (right_ : Expr)
  | UnaryExpr (op_ : Token) (right_ : Expr)
  | CallExpr (callee_ : Expr) (arguments_ : list Expr)
  | ArrayExpr (elements_ : list Expr)
  | MapExpr (pairs_ : list (Expr * Expr))
  | MemberExpr (object_ : Expr) (property_ : string)
  | IndexExpr (array_ : Expr) (index_ : Expr)
  | AssignExpr (target_ : Expr) (value_ : Expr).

Inductive Stmt :=
  | ExprStmt (expression_ : Expr)
  | VarDecl (name_ : string) (initializer_ : option Expr)
  | FuncDecl (name_ : string) (params_ : list string) (body_ : list Stmt)
  | ClassDecl (name_ : string) (methods_ : list (string * list string * list Stmt))
  | ReturnStmt (value_ : option Expr)
  | IfStmt (condition_ : Expr) (thenBranch_ : list Stmt) (elseBranch_ : list Stmt)
  | WhileStmt (condition_ : Expr) (body_ : list Stmt)
  | ForStmt (initializer_ : option Stmt) (condition_ : option Expr)
            (increment_ : option Expr) (body_ : list Stmt)
  | TryStmt (tryBody_ : list Stmt) (catchVar_ : string)
            (catchBody_ : list Stmt) (finallyBody_ : list Stmt)
  | BlockStmt (statements_ : list Stmt).

(** ** object.h

    Addresses of the two stores. *)

Abbreviation loc := nat.

(** The native functions of [builtins.cpp]. *)
Inductive Builtin := Bprint | Blen | Btype | Babs | Bstr | Bint | Bfloat.

(** [FunctionObject::Callable] is a [std::function]; the program builds three
    kinds of them: the lambdas of [defineBuiltins], the lambda of
    [executeFuncDecl], which captures [this] and the declaration [stmt] (and
    no environment), and the lambda of [executeClassDecl], which ignores its
    arguments and returns null. *)
Inductive Callable :=
  | NativeFn (b : Builtin)
  | DeclFn (params_ : list string) (body_ : list Stmt)
  | MethodFn.

Record FunctionObject := mkFunction {
  fn_name : string;
  callable_ : Callable;
  arity_ : nat
}.

Record ClassObject := mkClass {
  cls_name : string;
  methods_ : gmap string FunctionObject
}.

(** A [std::shared_ptr<Object>].  Arrays and maps are never updated in place
    by the evaluator and compare structurally, so they are kept by value; an
    instance is its address in the instance store. *)
Inductive Value :=
  | VInteger (value_ : Z)
  | VFloat (value_ : float)
  | VString (value_ : string)
  | VBoolean (value_ : bool)
  | VNull
  | VArray (elements_ : list Value)
  | VMap (map_ : gmap string Value)
  | VFunction (f : FunctionObject)
  | VClass (c : ClassObject)
  | VInstance (l : loc).

Inductive ObjectType :=
  | INTEGER | FLOAT | STRING_OBJ | BOOLEAN | NULL_OBJ
  | ARRAY | MAP | FUNCTION | CLASS_OBJ | INSTANCE.

#[global] Instance ObjectType_eq_dec : EqDecision ObjectType.
Proof. solve_decision. Defined.

Definition type_of (v : Value) : ObjectType :=
  match v with
  | VInteger _ => INTEGER
  | VFloat _ => FLOAT
  | VString _ => STRING_OBJ
  | VBoolean _ => BOOLEAN
  | VNull => NULL_OBJ
  | VArray _ => ARRAY
  | VMap _ => MAP
  | VFunction _ => FUNCTION
  | VClass _ => CLASS_OBJ
  | VInstance _ => INSTANCE
  end.

Record InstanceObject := mkInstance {
  class_ : ClassObject;
  fields_ : gmap string Value
}.

(** ** 64-bit integers and doubles *)

(** [long long] arithmetic.  An overflow of [+], [-], [*] or of the unary
    [-] is given the two's complement result of the machine. *)
Definition wrap64 (z : Z) : Z := (z + 2^63) mod 2^64 - 2^63.

(** The conversion of a [long long] to [size_t]. *)
Definition to_size_t (z : Z) : Z := z mod 2^64.

(** The conversion of a [long long] to [double] (round to nearest). *)
Definition double_of_Z (z : Z) : float :=
  if z =? - 2^63 then (-9223372036854775808)%float
  else if 0 <=? z then PrimFloat.of_uint63 (Uint63.of_Z z)
  else PrimFloat.opp (PrimFloat.of_uint63 (Uint63.of_Z (- z))).

(** [static_cast<long long>] of a [double]: truncation towards zero, with no
    defined result outside the range of [long long]. *)
Definition Z_of_double (f : float) : option Z :=
  match Prim2SF f with
  | S754_zero _ => Some 0
  | S754_finite s m e =>
      let a := Z.shiftl (Z.pos m) e in
      let v := if s then - a else a in
      if (- 2^63 <=? v) && (v <? 2^63) then Some v else None
  | _ => None
  end.

(** [std::stoll], base 10: leading white space, an optional sign, then the
    longest run of digits; [None] stands for the two exceptions
    ([invalid_argument] with no digit, [out_of_range]). *)
Definition isspace (c : ascii) : bool :=
  let n := N_of_ascii c in ((n =? 32) || ((9 <=? n) && (n <=? 13)))%N.

Definition digit_of (c : ascii) : option Z :=
  let n := N_of_ascii c in
  if ((48 <=? n) && (n <=? 57))%N then Some (Z.of_N n - 48) else None.

Fixpoint skip_spaces (s : string) : string :=
  match s with
  | String c r => if isspace c then skip_spaces r else s
  | EmptyString => s
  end.

Fixpoint read_digits (acc : option Z) (s : string) : option Z :=
  match s with
  | String c r =>
      match digit_of c with
      | Some d => read_digits (Some (10 * default 0 acc + d)) r
      | None => acc
      end
  | EmptyString => acc
  end.

Definition stoll (s : string) : option Z :=
  let s1 := skip_spaces s in
  let '(neg, s2) :=
    match s1 with
    | String "-"%char r => (true, r)
    | String "+"%char r => (false, r)
    | _ => (false, s1)
    end in
  match read_digits None s2 with
  | None => None
  | Some n =>
      let v := if neg : bool then - n else n in
      if (- 2^63 <=? v) && (v <? 2^63) then Some v else None
  end.

(** [s.find('.') != std::string::npos] *)
Fixpoint has_dot (s : string) : bool :=
  match s with
  | String c r => if Ascii.eqb c "."%char then true else has_dot r
  | EmptyString => false
  end.

(** ** object.cpp *)

(** [Object::equals], dispatched on the left object; every override first
    compares the type tags.  Doubles compare with the IEEE [==]; functions
    and classes by name; instances by identity. *)
Fixpoint equals (a b : Value) {struct a} : bool :=
  match a, b with
  | VInteger x, VInteger y => x =? y
  | VFloat x, VFloat y => PrimFloat.eqb x y
  | VString x, VString y => String.eqb x y
  | VBoolean x, VBoolean y => Bool.eqb x y
  | VNull, VNull => true
  | VArray xs, VArray ys =>
      (length xs =? length ys)%nat &&
      (fix all (xs ys : list Value) {struct xs} : bool :=
         match xs, ys with
         | x :: xs', y :: ys' => equals x y && all xs' ys'
         | _, _ => true
         end) xs ys
  | VMap m, VMap m' =>
      (size m =? size m')%nat &&
      map_fold (fun k v acc =>
                  acc && match m' !! k with
                         | Some v' => equals v v'
                         | None => false
                         end) true m
  | VFunction f, VFunction g => String.eqb (fn_name f) (fn_name g)
  | VClass c, VClass d => String.eqb (cls_name c) (cls_name d)
  | VInstance l, VInstance l' => (l =? l')%nat
  | _, _ => false
  end.

Definition newline : string := String (ascii_of_nat 10) EmptyString.
Definition dquote : string := String (ascii_of_nat 34) EmptyString.

(** [InstanceObject::getMethod] *)
Definition getMethod (i : InstanceObject) (name : string) : option FunctionObject :=
  methods_ (class_ i) !! name.

(** [ClassObject::instantiate]: a new instance that owns a copy of the
    class, with no field. *)
Definition instantiate (c : ClassObject) : InstanceObject := mkInstance c ∅.

(** [InstanceObject::get]: the field when there is one; otherwise the method
    of that name, which is stored into [fields_] by the statement
    [return fields_[property] = method]; otherwise null.  The updated
    instance is returned with the value. *)
Definition InstanceObject_get (i : InstanceObject) (property : string)
  : Value * InstanceObject :=
  match fields_ i !! property with
  | Some v => (v, i)
  | None =>
      match getMethod i property with
      | Some method =>
          (VFunction method,
           mkInstance (class_ i) (<[property := VFunction method]> (fields_ i)))
      | None => (VNull, i)
      end
  end.

(** [InstanceObject::set] *)
Definition InstanceObject_set (i : InstanceObject) (property : string) (value : Value)
  : InstanceObject :=
  mkInstance (class_ i) (<[property := value]> (fields_ i)).

(** ** environment.cpp

    A frame of the scope chain.  Frames are shared through
    [std::shared_ptr], so they live in a store ([list Environment], the
    address is the position) and [enclosing_] is an address. *)
Record Environment := mkEnvironment {
  values_ : gmap string Value;
  enclosing_ : option loc
}.

(** [Environment::define], on the frame at [self]. *)
Definition Environment_define (h : list Environment) (self : loc)
    (name : string) (value : Value) : list Environment :=
  alter (fun e => mkEnvironment (<[name := value]> (values_ e)) (enclosing_ e)) self h.

(** [Environment::get] follows [enclosing_] recursively.  The recursion is
    bounded by [fuel]; [None] is an address outside the store or fuel spent,
    neither of which happens on a chain of distinct frames with
    [fuel = length h]. *)
Fixpoint Environment_get_rec (fuel : nat) (h : list Environment) (self : loc)
    (name : string) : option Value :=
  match fuel with
  | O => None
  | S n =>
      match h !! self with
      | None => None
      | Some e =>
          match values_ e !! name with
          | Some v => Some v
          | None =>
              match enclosing_ e with
              | Some p => Environment_get_rec n h p name
              | None => Some VNull  (* Undefined variable - return null for now *)
              end
          end
      end
  end.

Definition Environment_get (h : list Environment) (self : loc) (name : string)
  : option Value :=
  Environment_get_rec (length h) h self name.

(** [Environment::assign]: the frame itself when it has the name, otherwise
    the enclosing frame, and [define] on the frame that has no enclosing
    one. *)
Fixpoint Environment_assign_rec (fuel : nat) (h : list Environment) (self : loc)
    (name : string) (value : Value) : option (list Environment) :=
  match fuel with
  | O => None
  | S n =>
      match h !! self with
      | None => None
      | Some e =>
          match values_ e !! name with
          | Some _ => Some (Environment_define h self name value)
          | None =>
              match enclosing_ e with
              | Some p => Environment_assign_rec n h p name value
              | None => Some (Environment_define h self name value)
              end
          end
      end
  end.

Definition Environment_assign (h : list Environment) (self : loc) (name : string)
    (value : Value) : option (list Environment) :=
  Environment_assign_rec (length h) h self name value.

(** The frames from [self] outwards, innermost first. *)
Fixpoint chain_rec (fuel : nat) (h : list Environment) (self : loc) : list loc :=
  match fuel with
  | O => []
  | S n =>
      match h !! self with
      | None => []
      | Some e =>
          self :: match enclosing_ e with
                  | Some p => chain_rec n h p
                  | None => []
                  end
      end
  end.

Definition chain (h : list Environment) (self : loc) : list loc :=
  chain_rec (length h) h self.

(** The frame at [l] has a binding for [name]. *)
Definition defines (h : list Environment) (name : string) (l : loc) : bool :=
  match h !! l with
  | Some e => bool_decide (is_Some (values_ e !! name))
  | None => false
  end.

(** A store as the interpreter builds it: a frame is created after the frame
    it encloses and the link never changes. *)
Definition wf_envs (h : list Environment) : Prop :=
  ∀ (l : loc) (e : Environment) (p : loc),
    h !! l = Some e → enclosing_ e = Some p → (p < l)%nat.

(** ** interpreter.h: the interpreter object

    [envs] and [instances] are the two stores, [cout] what has been written
    to the standard output.  [lastResult_] is a null pointer until the first
    expression statement. *)
Record Interpreter := mkInterpreter {
  environment_ : loc;
  globals_ : loc;
  lastResult_ : option Value;
  envs : list Environment;
  instances : list InstanceObject;
  cout : string
}.

Definition set_environment (l : loc) (st : Interpreter) : Interpreter :=
  mkInterpreter l (globals_ st) (lastResult_ st) (envs st) (instances st) (cout st).
Definition set_lastResult (v : Value) (st : Interpreter) : Interpreter :=
  mkInterpreter (environment_ st) (globals_ st) (Some v) (envs st) (instances st) (cout st).
Definition set_envs (h : list Environment) (st : Interpreter) : Interpreter :=
  mkInterpreter (environment_ st) (globals_ st) (lastResult_ st) h (instances st) (cout st).
Definition set_instances (h : list InstanceObject) (st : Interpreter) : Interpreter :=
  mkInterpreter (environment_ st) (globals_ st) (lastResult_ st) (envs st) h (cout st).
Definition write (s : string) (st : Interpreter) : Interpreter :=
  mkInterpreter (environment_ st) (globals_ st) (lastResult_ st) (envs st) (instances st)
                (cout st +:+ s).

(** How a call of an interpreter method ends.  [Throw what] is a
    [std::runtime_error] leaving the method; [Undefined] is an execution the
    C++ standard gives no meaning to (a [static_cast] to the wrong class, a
    remainder by zero); [OutOfFuel] belongs to the model only. *)
Inductive Outcome (A : Type) :=
  | Ok (a : A)
  | Throw (what : string)
  | Undefined
  | OutOfFuel.
Arguments Ok {A} a.
Arguments Throw {A} what.
Arguments Undefined {A}.
Arguments OutOfFuel {A}.

(** A method of the interpreter: the state is returned with every outcome,
    since what was done before a throw stays done. *)
Definition M (A : Type) : Type := Interpreter → Outcome A * Interpreter.

Definition ret {A} (a : A) : M A := fun st => (Ok a, st).
Definition lift {A} (o : Outcome A) : M A := fun st => (o, st).
Definition bind {A B} (m : M A) (k : A → M B) : M B :=
  fun st =>
    match m st with
    | (Ok a, st') => k a st'
    | (Throw what, st') => (Throw what, st')
    | (Undefined, st') => (Undefined, st')
    | (OutOfFuel, st') => (OutOfFuel, st')
    end.
Definition gets {A} (f : Interpreter → A) : M A := fun st => (Ok (f st), st).
Definition modify (f : Interpreter → Interpreter) : M unit := fun st => (Ok tt, f st).
(** An operation undefined on some stores. *)
Definition defined {A} (o : option A) : M A :=
  fun st => match o with Some a => (Ok a, st) | None => (Undefined, st) end.

(** [try { m } catch (...) { handler }] *)
Definition try_catch {A} (m : M A) (handler : string → M A) : M A :=
  fun st =>
    match m st with
    | (Throw what, st') => handler what st'
    | r => r
    end.

Notation "'do' x <- m ; k" := (bind m (fun x => k))
  (at level 10, x name, m at level 100, k at level 200,
   format "'[v' 'do'  x  <-  m ; '/' k ']'").
Notation "m ;; k" := (bind m (fun _ => k))
  (at level 100, k at level 200, right associativity).

(** A range-based [for] loop over a vector. *)
Fixpoint forEach {A} (f : A → M unit) (l : list A) : M unit :=
  match l with
  | [] => ret tt
  | x :: l' => f x ;; forEach f l'
  end.

(** A loop that pushes one result per element. *)
Fixpoint mapM {A B} (f : A → M B) (l : list A) : M (list B) :=
  match l with
  | [] => ret []
  | x :: l' => do y <- f x; do ys <- mapM f l'; ret (y :: ys)
  end.

(** [std::make_shared<Environment>(enclosing)] *)
Definition newEnvironment (enclosing : option loc) : M loc :=
  fun st => (Ok (length (envs st)),
             set_envs (envs st ++ [mkEnvironment ∅ enclosing]) st).

Definition define (self : loc) (name : string) (value : Value) : M unit :=
  modify (fun st => set_envs (Environment_define (envs st) self name value) st).

(** [Interpreter::isTruthy] *)
Definition isTruthy (object : Value) : bool :=
  match object with
  | VNull => false
  | VBoolean b => b
  | _ => true
  end.

(** [Interpreter::isEqual] *)
Definition isEqual (a b : Value) : bool :=
  bool_decide (type_of a = type_of b) && equals a b.

(** The invariant of the store of frames: the store is well formed and the
    current environment is a frame of it.  A method is [good n] when, run on
    a store of at least [n] frames, it keeps the invariant and never removes
    a frame. *)
Definition inv (st : Interpreter) : Prop :=
  wf_envs (envs st) ∧ (environment_ st < length (envs st))%nat.

Definition good {A} (n : nat) (m : M A) : Prop :=
  ∀ st r st', m st = (r, st') → inv st → (n ≤ length (envs st))%nat →
    inv st' ∧ (length (envs st) ≤ length (envs st'))%nat.

(** A call of a method completes when it returns or throws. *)
Definition completes {A} (r : Outcome A) : Prop :=
  match r with Ok _ | Throw _ => True | Undefined | OutOfFuel => False end.

(** A method that, when it completes, leaves the current environment as it
    found it. *)
Definition keeps {A} (m : M A) : Prop :=
  ∀ st r st', m st = (r, st') → completes r → environment_ st' = environment_ st.



(** ** Programs of the specification's examples, as syntax trees *)

Definition op (t : TokenType) (lexeme : string) : Token := mkToken t lexeme 1 1.
Definition call (f : string) (args : list Expr) : Expr := CallExpr (VariableExpr f) args.
Definition print_ (s : string) : Stmt := ExprStmt (call "print" [StringExpr s]).

(** [func f(n) { if (n < 2) { return n; } return f(n-1) + f(n-2); }] *)
Definition fib_decl : Stmt :=
  FuncDecl "f" ["n"]
    [ IfStmt (BinaryExpr (VariableExpr "n") (op LESS "<") (LiteralExpr "2"))
        [ReturnStmt (Some (VariableExpr "n"))] [];
      ReturnStmt (Some
        (BinaryExpr
           (call "f" [BinaryExpr (VariableExpr "n") (op MINUS "-") (LiteralExpr "1")])
           (op PLUS "+")
           (call "f" [BinaryExpr (VariableExpr "n") (op MINUS "-") (LiteralExpr "2")]))) ].

(** [f(6);] after the declaration *)
Definition fib_program : list Stmt :=
  [fib_decl; ExprStmt (call "f" [LiteralExpr "6"])].

(** [func one() { return 1; }  one();] *)
Definition return_one_program : list Stmt :=
  [FuncDecl "one" [] [ReturnStmt (Some (LiteralExpr "1"))]; ExprStmt (call "one" [])].

(** [func g() { try { return 1; } catch (e) { } finally { print("cleanup"); } }
    g();] *)
Definition finally_program : list Stmt :=
  [ FuncDecl "g" []
      [TryStmt [ReturnStmt (Some (LiteralExpr "1"))] "e" [] [print_ "cleanup"]];
    ExprStmt (call "g" []) ].

(** [func h() { try { return 1; } catch (e) { return 2; }
               finally { print("cleanup"); } }  h();] *)
Definition finally_skipped_program : list Stmt :=
  [ FuncDecl "h" []
      [TryStmt [ReturnStmt (Some (LiteralExpr "1"))] "e"
               [ReturnStmt (Some (LiteralExpr "2"))] [print_ "cleanup"]];
    ExprStmt (call "h" []) ].

(** [func k() { try { return 1; } catch (e) { print("caught"); } }  k();] *)
Definition catch_return_program : list Stmt :=
  [ FuncDecl "k" []
      [TryStmt [ReturnStmt (Some (LiteralExpr "1"))] "e" [print_ "caught"] []];
    ExprStmt (call "k" []) ].

(** [try { 1 - "a"; } catch (e) { m = e; }] *)
Definition catch_message_program : list Stmt :=
  [ TryStmt [ExprStmt (BinaryExpr (LiteralExpr "1") (op MINUS "-") (StringExpr "a"))] "e"
            [ExprStmt (AssignExpr (VariableExpr "m") (VariableExpr "e"))] [] ].

(** [func f(a) { r = y; }  { var y = 7; f(1); }] *)
Definition scope_program : list Stmt :=
  [ FuncDecl "f" ["a"] [ExprStmt (AssignExpr (VariableExpr "r") (VariableExpr "y"))];
    BlockStmt [ VarDecl "y" (Some (LiteralExpr "7"));
                ExprStmt (call "f" [LiteralExpr "1"]) ] ].

(** [[10, 20]] *)
Definition two_elements : Expr := ArrayExpr [LiteralExpr "10"; LiteralExpr "20"].

(** The runs of these programs never convert a double from or to text; they
    are made with these two stand-ins for [std::stod] and
    [std::to_string(double)]. *)
Definition stod_unused : string → option float := fun _ => None.
Definition to_string_unused : float → string := fun _ => "".

(** A store of two frames, the second enclosed by the first, both empty. *)
Definition two_frames : list Environment :=
  [mkEnvironment ∅ None; mkEnvironment ∅ (Some 0%nat)].

(** An interpreter whose current frame is the inner one of [two_frames]. *)
Definition in_two_frames : Interpreter :=
  mkInterpreter 1%nat 0%nat None two_frames [] "".

(** A class with one method [area], and an interpreter that holds one
    instance of it, bound to [s] in the global frame. *)
Definition shape_class : ClassObject :=
  mkClass "Shape" {["area" := mkFunction "area" MethodFn 0%nat]}.

(** An interpreter in which the names [a] and [b] are bound to the same
    instance. *)
Definition aliased : Interpreter :=
  mkInterpreter 0%nat 0%nat None
    [mkEnvironment (<["a" := VInstance 0%nat]> {["b" := VInstance 0%nat]}) None]
    [instantiate shape_class] "".

(** [-"x";], which fails the operand check. *)
Definition negate_string : Stmt := ExprStmt (UnaryExpr (op MINUS "-") (StringExpr "x")).

Section Evaluator.

(** Two functions of the C++ standard library are left abstract: [std::stod]
    ([None] when it throws) and [std::to_string(double)]. *)
Variable stod : string → option float.
Variable to_string_double : float → string.

Definition join (sep : string) (l : list string) : string :=
  match l with
  | [] => ""
  | x :: l' => fold_left (fun acc y => acc +:+ sep +:+ y) l' x
  end.

(** [Object::toString].  An instance prints the name of its class, read from
    the instance store [insts].  The entries of a map are listed in the
    order of the model's map; [std::unordered_map] iterates in an order of
    its own, which the C++ standard leaves unspecified, so the text of a map
    of two or more entries is the text of the code up to the order of the
    entries only. *)
Fixpoint toString (insts : list InstanceObject) (v : Value) {struct v} : string :=
  match v with
  | VInteger z => pretty z
  | VFloat d => to_string_double d
  | VString s => dquote +:+ s +:+ dquote
  | VBoolean b => if b then "true" else "false"
  | VNull => "null"
  | VArray elements =>
      "[" +:+ join ", " ((fix each (l : list Value) : list string :=
                            match l with
                            | [] => []
                            | x :: l' => toString insts x :: each l'
                            end) elements) +:+ "]"
  | VMap m =>
      "{" +:+ join ", " (map_fold (fun k x acc =>
                            (dquote +:+ k +:+ dquote +:+ ": " +:+ toString insts x) :: acc)
                          [] m) +:+ "}"
  | VFunction f => "<function " +:+ fn_name f +:+ ">"
  | VClass c => "<class " +:+ cls_name c +:+ ">"
  | VInstance l =>
      "<" +:+ from_option (fun i => cls_name (class_ i)) "" (insts !! l) +:+ " instance>"
  end.

(** ** builtins.cpp: the bodies of the native functions *)
Definition callBuiltin (b : Builtin) (args : list Value) : M Value :=
  match b with
  | Bprint =>
      do insts <- gets instances;
      modify (write (join " " (map (toString insts) args) +:+ newline)) ;;
      ret VNull
  | Blen =>
      match args with
      | [VString s] => ret (VInteger (Z.of_nat (String.length s)))
      | [VArray arr] => ret (VInteger (Z.of_nat (length arr)))
      | [_] => ret (VInteger 0)
      | _ => ret VNull
      end
  | Btype =>
      match args with
      | [obj] =>
          ret (VString match type_of obj with
                       | INTEGER => "int"
                       | FLOAT => "float"
                       | STRING_OBJ => "string"
                       | BOOLEAN => "bool"
                       | ARRAY => "array"
                       | MAP => "map"
                       | FUNCTION => "function"
                       | CLASS_OBJ => "class"
                       | INSTANCE => "instance"
                       | NULL_OBJ => "null"
                       end)
      | _ => ret (VString "unknown")
      end
  | Babs =>
      match args with
      | [VInteger z] =>
          (* std::abs of the least long long has no defined result *)
          if z =? - 2^63 then lift Undefined else ret (VInteger (Z.abs z))
      | [VFloat d] => ret (VFloat (PrimFloat.abs d))
      | _ => ret VNull
      end
  | Bstr =>
      match args with
      | [obj] => do insts <- gets instances; ret (VString (toString insts obj))
      | _ => ret (VString "")
      end
  | Bint =>
      match args with
      | [VInteger z] => ret (VInteger z)
      | [VFloat d] => do z <- defined (Z_of_double d); ret (VInteger z)
      | [VString s] => ret (VInteger (default 0 (stoll s)))
      | _ => ret (VInteger 0)
      end
  | Bfloat =>
      match args with
      | [VFloat d] => ret (VFloat d)
      | [VInteger z] => ret (VFloat (double_of_Z z))
      | [VString s] => ret (VFloat (default 0%float (stod s)))
      | _ => ret (VFloat 0%float)
      end
  end.

(** [defineBuiltins]; [makeFunction] gives [print] the default arity 0. *)
Definition defineBuiltins : M unit :=
  do g <- gets globals_;
  define g "print" (VFunction (mkFunction "print" (NativeFn Bprint) 0%nat)) ;;
  define g "len" (VFunction (mkFunction "len" (NativeFn Blen) 1%nat)) ;;
  define g "type" (VFunction (mkFunction "type" (NativeFn Btype) 1%nat)) ;;
  define g "abs" (VFunction (mkFunction "abs" (NativeFn Babs) 1%nat)) ;;
  define g "str" (VFunction (mkFunction "str" (NativeFn Bstr) 1%nat)) ;;
  define g "int" (VFunction (mkFunction "int" (NativeFn Bint) 1%nat)) ;;
  define g "float" (VFunction (mkFunction "float" (NativeFn Bfloat) 1%nat)).

(** [Interpreter::Interpreter]: one frame, both the current and the global
    one, with the native functions. *)
Definition Interpreter_new : Interpreter :=
  snd (defineBuiltins (mkInterpreter 0%nat 0%nat None [mkEnvironment ∅ None] [] "")).

(** ** interpreter.cpp: helper methods *)

Definition is_number (v : Value) : bool :=
  match v with VInteger _ | VFloat _ => true | _ => false end.

(** [Interpreter::checkNumberOperand] *)
Definition checkNumberOperand (operand : Value) : Outcome unit :=
  if is_number operand then Ok tt else Throw "Operand must be a number.".

(** [Interpreter::checkNumberOperands] *)
Definition checkNumberOperands (left right : Value) : Outcome unit :=
  if is_number left && is_number right then Ok tt
  else Throw "Operands must be numbers.".

(** The conditional expression
    [x->type() == FLOAT ? static_cast<FloatObject*>(x)->value()
                        : static_cast<IntegerObject*>(x)->value()]:
    the second cast is unchecked, so anything but a number has no defined
    value. *)
Definition double_value (v : Value) : Outcome float :=
  match v with
  | VFloat d => Ok d
  | VInteger z => Ok (double_of_Z z)
  | _ => Undefined
  end.

Definition on_doubles (f : float → float → Value) (left right : Value) : Outcome Value :=
  match double_value left, double_value right with
  | Ok x, Ok y => Ok (f x y)
  | _, _ => Undefined
  end.

(** [Interpreter::evaluateBinary] after both operands are evaluated: the
    [switch] on the operator.  A [break] leaves the switch for the final
    [return makeNull()]. *)
Definition binary (op : TokenType) (left right : Value) : Outcome Value :=
  match op with
  | PLUS =>
      match left, right with
      | VInteger a, VInteger b => Ok (VInteger (wrap64 (a + b)))
      | _, _ =>
          if bool_decide (type_of left = FLOAT) || bool_decide (type_of right = FLOAT)
          then on_doubles (fun x y => VFloat (x + y)) left right
          else match left, right with
               | VString a, VString b => Ok (VString (a +:+ b))
               | _, _ => Ok VNull
               end
      end
  | MINUS =>
      match checkNumberOperands left right with
      | Ok _ =>
          match left, right with
          | VInteger a, VInteger b => Ok (VInteger (wrap64 (a - b)))
          | _, _ => on_doubles (fun x y => VFloat (x - y)) left right
          end
      | Throw what => Throw what
      | _ => Undefined
      end
  | MULTIPLY =>
      match checkNumberOperands left right with
      | Ok _ =>
          match left, right with
          | VInteger a, VInteger b => Ok (VInteger (wrap64 (a * b)))
          | _, _ => on_doubles (fun x y => VFloat (x * y)) left right
          end
      | Throw what => Throw what
      | _ => Undefined
      end
  | DIVIDE =>
      match checkNumberOperands left right with
      | Ok _ => on_doubles (fun x y => VFloat (x / y)) left right
      | Throw what => Throw what
      | _ => Undefined
      end
  | MODULO =>
      match checkNumberOperands left right with
      | Ok _ =>
          match left, right with
          | VInteger a, VInteger b =>
              (* the C++ [%]: remainder of the truncated division, undefined
                 when the quotient is not representable *)
              if (b =? 0) || ((a =? - 2^63) && (b =? -1)) then Undefined
              else Ok (VInteger (Z.rem a b))
          | _, _ => Ok VNull
          end
      | Throw what => Throw what
      | _ => Undefined
      end
  | EQUAL_EQUAL => Ok (VBoolean (isEqual left right))
  | BANG_EQUAL => Ok (VBoolean (negb (isEqual left right)))
  | LESS =>
      match checkNumberOperands left right with
      | Ok _ =>
          match left, right with
          | VInteger a, VInteger b => Ok (VBoolean (a <? b))
          | _, _ => on_doubles (fun x y => VBoolean (x <? y)%float) left right
          end
      | Throw what => Throw what
      | _ => Undefined
      end
  | LESS_EQUAL | GREATER | GREATER_EQUAL =>
      match checkNumberOperands left right with
      | Ok _ => Ok VNull  (* Similar to LESS but with different comparisons *)
      | Throw what => Throw what
      | _ => Undefined
      end
  | AND => Ok (VBoolean (isTruthy left && isTruthy right))
  | OR => Ok (VBoolean (isTruthy left || isTruthy right))
  | _ => Ok VNull
  end.

(** [Interpreter::evaluateUnary] after the operand is evaluated. *)
Definition unary (op : TokenType) (right : Value) : Outcome Value :=
  match op with
  | MINUS =>
      match checkNumberOperand right with
      | Ok _ =>
          match right with
          | VInteger a => Ok (VInteger (wrap64 (- a)))
          | VFloat d => Ok (VFloat (- d))
          | _ => Undefined
          end
      | Throw what => Throw what
      | _ => Undefined
      end
  | BANG => Ok (VBoolean (negb (isTruthy right)))
  | _ => Ok VNull
  end.

(** [Interpreter::evaluateLiteral]: the text is read as a number, and kept
    as a string when the conversion throws. *)
Definition evaluateLiteral (text : string) : Value :=
  if has_dot text
  then match stod text with Some d => VFloat d | None => VString text end
  else match stoll text with Some z => VInteger z | None => VString text end.

(** ** interpreter.cpp: expressions

    Every method is written over the two recursive entry points it calls,
    [eval] for [Interpreter::evaluate] and [exec] for [Interpreter::execute];
    the knot is tied in [evaluate] and [execute] below. *)

Definition instance_at (l : loc) : M InstanceObject :=
  do insts <- gets instances; defined (insts !! l).

Definition store_instance (l : loc) (i : InstanceObject) : M unit :=
  modify (fun st => set_instances (<[l := i]> (instances st)) st).

(** The parameter loop of the function lambda,
    [funcEnv->define(stmt.params_[i], args[i])]. *)
Fixpoint bindParams (funcEnv : loc) (params : list string) (args : list Value) : M unit :=
  match params, args with
  | [], _ => ret tt
  | p :: params', a :: args' => define funcEnv p a ;; bindParams funcEnv params' args'
  | _ :: _, [] => lift Undefined
  end.

(** The lambda that [executeFuncDecl] stores in the function object.  The
    new frame encloses [environment_] as it is when the lambda runs; [result]
    is initialised to null and returned, and the handler of the [try] is
    empty. *)
Definition funcLambda (exec : Stmt → M unit) (params : list string) (body : list Stmt)
    (args : list Value) : M Value :=
  do current <- gets environment_;
  do funcEnv <- newEnvironment (Some current);
  bindParams funcEnv params args ;;
  do previousEnv <- gets environment_;
  modify (set_environment funcEnv) ;;
  let result := VNull in
  try_catch (forEach exec body) (fun _ => ret tt) ;;
  modify (set_environment previousEnv) ;;
  ret result.

Definition callable (exec : Stmt → M unit) (c : Callable) (args : list Value) : M Value :=
  match c with
  | NativeFn b => callBuiltin b args
  | DeclFn params body => funcLambda exec params body args
  | MethodFn => ret VNull
  end.

(** [FunctionObject::call] *)
Definition FunctionObject_call (exec : Stmt → M unit) (f : FunctionObject)
    (args : list Value) : M Value :=
  if negb (length args =? arity_ f)%nat && negb (arity_ f =? 0)%nat
  then ret VNull  (* Error handling would go here *)
  else callable exec (callable_ f) args.

(** [Interpreter::callFunction] *)
Definition callFunction (exec : Stmt → M unit) (function : FunctionObject)
    (arguments : list Value) : M Value :=
  FunctionObject_call exec function arguments.

(** [Interpreter::evaluateVariable] *)
Definition evaluateVariable (name : string) : M Value :=
  do current <- gets environment_;
  do h <- gets envs;
  defined (Environment_get h current name).

(** [Interpreter::evaluateBinary] *)
Definition evaluateBinary (eval : Expr → M Value) (left_ : Expr) (op_ : Token)
    (right_ : Expr) : M Value :=
  do left <- eval left_;
  do right <- eval right_;
  lift (binary (type op_) left right).

(** [Interpreter::evaluateUnary] *)
Definition evaluateUnary (eval : Expr → M Value) (op_ : Token) (right_ : Expr) : M Value :=
  do right <- eval right_;
  lift (unary (type op_) right).

(** [Interpreter::evaluateCall] *)
Definition evaluateCall (eval : Expr → M Value) (exec : Stmt → M unit)
    (callee_ : Expr) (arguments_ : list Expr) : M Value :=
  do callee <- eval callee_;
  do arguments <- mapM eval arguments_;
  match callee with
  | VFunction f => callFunction exec f arguments
  | VClass classObj =>
      let instance := instantiate classObj in
      do l <- (fun st => (Ok (length (instances st)),
                          set_instances (instances st ++ [instance]) st));
      match getMethod instance "__init__" with
      | Some initMethod => callFunction exec initMethod arguments ;; ret tt
      | None => ret tt
      end ;;
      ret (VInstance l)
  | _ => ret VNull
  end.

(** [Interpreter::evaluateArray] *)
Definition evaluateArray (eval : Expr → M Value) (elements_ : list Expr) : M Value :=
  do elements <- mapM eval elements_;
  ret (VArray elements).

(** [Interpreter::evaluateMap]: a pair whose key is not a string is skipped,
    and its value is not evaluated. *)
Fixpoint evaluateMapPairs (eval : Expr → M Value) (pairs_ : list (Expr * Expr))
    (map : gmap string Value) : M Value :=
  match pairs_ with
  | [] => ret (VMap map)
  | (k, v) :: pairs' =>
      do key <- eval k;
      match key with
      | VString s => do value <- eval v; evaluateMapPairs eval pairs' (<[s := value]> map)
      | _ => evaluateMapPairs eval pairs' map
      end
  end.

Definition evaluateMap (eval : Expr → M Value) (pairs_ : list (Expr * Expr)) : M Value :=
  evaluateMapPairs eval pairs_ ∅.

(** [Interpreter::evaluateMember] *)
Definition evaluateMember (eval : Expr → M Value) (object_ : Expr) (property_ : string)
  : M Value :=
  do object <- eval object_;
  match object with
  | VInstance l =>
      do instance <- instance_at l;
      let '(v, instance') := InstanceObject_get instance property_ in
      store_instance l instance' ;;
      ret v
  | _ => ret VNull
  end.

(** [Interpreter::evaluateIndex]: [idx] is the integer converted to
    [size_t]. *)
Definition evaluateIndex (eval : Expr → M Value) (array_ index_ : Expr) : M Value :=
  do array <- eval array_;
  do index <- eval index_;
  match array, index with
  | VArray arr, VInteger i =>
      let idx := to_size_t i in
      if idx <? Z.of_nat (length arr)
      then defined (arr !! Z.to_nat idx)
      else ret VNull
  | _, _ => ret VNull
  end.

(** [Interpreter::evaluateAssign] *)
Definition evaluateAssign (eval : Expr → M Value) (target_ value_ : Expr) : M Value :=
  do value <- eval value_;
  match target_ with
  | VariableExpr name =>
      do current <- gets environment_;
      do h <- gets envs;
      do h' <- defined (Environment_assign h current name value);
      modify (set_envs h')
  | MemberExpr object_ property =>
      do object <- eval object_;
      match object with
      | VInstance l =>
          do instance <- instance_at l;
          store_instance l (InstanceObject_set instance property value)
      | _ => ret tt
      end
  | _ => ret tt
  end ;;
  ret value.

(** ** interpreter.cpp: statements *)

(** [Interpreter::executeExprStmt] *)
Definition executeExprStmt (eval : Expr → M Value) (expression_ : Expr) : M unit :=
  do v <- eval expression_;
  modify (set_lastResult v).

(** [Interpreter::executeVarDecl] *)
Definition executeVarDecl (eval : Expr → M Value) (name_ : string)
    (initializer_ : option Expr) : M unit :=
  do value <- match initializer_ with
              | Some e => eval e
              | None => ret VNull
              end;
  do current <- gets environment_;
  define current name_ value.

(** [Interpreter::executeFuncDecl] *)
Definition executeFuncDecl (name_ : string) (params_ : list string) (body_ : list Stmt)
  : M unit :=
  let function := mkFunction name_ (DeclFn params_ body_) (length params_) in
  do current <- gets environment_;
  define current name_ (VFunction function).

(** [Interpreter::executeClassDecl] *)
Definition executeClassDecl (name_ : string)
    (methods_ : list (string * list string * list Stmt)) : M unit :=
  let methods :=
    fold_left (fun (acc : gmap string FunctionObject) method =>
                 let '(mname, mparams, _) := method in
                 <[mname := mkFunction mname MethodFn (length mparams)]> acc)
              methods_ ∅ in
  do current <- gets environment_;
  define current name_ (VClass (mkClass name_ methods)).

(** [Interpreter::executeIfStmt] *)
Definition executeIfStmt (eval : Expr → M Value) (exec : Stmt → M unit)
    (condition_ : Expr) (thenBranch_ elseBranch_ : list Stmt) : M unit :=
  do c <- eval condition_;
  if isTruthy c then forEach exec thenBranch_ else forEach exec elseBranch_.

(** [Interpreter::executeWhileStmt]; [again] is the loop from its test. *)
Definition executeWhileStmt (eval : Expr → M Value) (exec : Stmt → M unit)
    (again : M unit) (condition_ : Expr) (body_ : list Stmt) : M unit :=
  do c <- eval condition_;
  if isTruthy c then forEach exec body_ ;; again else ret tt.

(** The [while] loop of [Interpreter::executeForStmt]. *)
Definition forLoopStep (eval : Expr → M Value) (exec : Stmt → M unit)
    (again : M unit) (condition_ increment_ : option Expr) (body_ : list Stmt) : M unit :=
  do continue <- match condition_ with
                 | None => ret true
                 | Some c => do v <- eval c; ret (isTruthy v)
                 end;
  if continue : bool
  then forEach exec body_ ;;
       match increment_ with
       | Some i => eval i ;; ret tt
       | None => ret tt
       end ;;
       again
  else ret tt.

(** [Interpreter::executeForStmt] *)
Definition executeForStmt (exec : Stmt → M unit) (loop : M unit)
    (initializer_ : option Stmt) : M unit :=
  do current <- gets environment_;
  do loopEnv <- newEnvironment (Some current);
  let previousEnv := current in
  modify (set_environment loopEnv) ;;
  match initializer_ with
  | Some s => exec s
  | None => ret tt
  end ;;
  loop ;;
  modify (set_environment previousEnv).

(** [Interpreter::executeReturnStmt] *)
Definition executeReturnStmt (eval : Expr → M Value) (value_ : option Expr) : M unit :=
  match value_ with
  | Some e => do v <- eval e; modify (set_lastResult v)
  | None => ret tt
  end ;;
  lift (Throw "return").

(** [Interpreter::executeTryStmt]: the handler is [catch (...)], it does not
    use [catchVar_], and the finally-body follows the whole [try] block. *)
Definition executeTryStmt (exec : Stmt → M unit)
    (tryBody_ catchBody_ finallyBody_ : list Stmt) : M unit :=
  try_catch (forEach exec tryBody_) (fun _ => forEach exec catchBody_) ;;
  forEach exec finallyBody_.

(** [Interpreter::executeBlockStmt] *)
Definition executeBlockStmt (exec : Stmt → M unit) (statements_ : list Stmt) : M unit :=
  do current <- gets environment_;
  do blockEnv <- newEnvironment (Some current);
  let previousEnv := current in
  modify (set_environment blockEnv) ;;
  forEach exec statements_ ;;
  modify (set_environment previousEnv).

(** [Interpreter::evaluate] and [Interpreter::execute].  The C++ recursion
    need not terminate; [fuel] bounds its depth, and every loop iteration
    takes one unit as well. *)
Fixpoint evaluate (fuel : nat) (expr : Expr) {struct fuel} : M Value :=
  match fuel with
  | O => lift OutOfFuel
  | S n =>
      match expr with
      | LiteralExpr text => ret (evaluateLiteral text)
      | NumberExpr d => ret (VFloat d)
      | StringExpr s => ret (VString s)
      | BoolExpr b => ret (VBoolean b)
      | NullExpr => ret VNull
      | VariableExpr name => evaluateVariable name
      | BinaryExpr l op r => evaluateBinary (evaluate n) l op r
      | UnaryExpr op r => evaluateUnary (evaluate n) op r
      | CallExpr c args => evaluateCall (evaluate n) (execute n) c args
      | ArrayExpr es => evaluateArray (evaluate n) es
      | MapExpr ps => evaluateMap (evaluate n) ps
      | MemberExpr o p => evaluateMember (evaluate n) o p
      | IndexExpr a i => evaluateIndex (evaluate n) a i
      | AssignExpr t v => evaluateAssign (evaluate n) t v
      end
  end
with execute (fuel : nat) (stmt : Stmt) {struct fuel} : M unit :=
  match fuel with
  | O => lift OutOfFuel
  | S n =>
      match stmt with
      | ExprStmt e => executeExprStmt (evaluate n) e
      | VarDecl name init => executeVarDecl (evaluate n) name init
      | FuncDecl name params body => executeFuncDecl name params body
      | ClassDecl name methods => executeClassDecl name methods
      | IfStmt c t e => executeIfStmt (evaluate n) (execute n) c t e
      | WhileStmt c body =>
          executeWhileStmt (evaluate n) (execute n) (execute n (WhileStmt c body)) c body
      | ForStmt init c incr body =>
          executeForStmt (execute n) (forLoop n c incr body) init
      | ReturnStmt v => executeReturnStmt (evaluate n) v
      | TryStmt t _ c f => executeTryStmt (execute n) t c f
      | BlockStmt ss => executeBlockStmt (execute n) ss
      end
  end
with forLoop (fuel : nat) (condition_ increment_ : option Expr) (body_ : list Stmt)
    {struct fuel} : M unit :=
  match fuel with
  | O => lift OutOfFuel
  | S n =>
      forLoopStep (evaluate n) (execute n) (forLoop n condition_ increment_ body_)
                  condition_ increment_ body_
  end.

(** [Interpreter::interpret] *)
Definition interpret (fuel : nat) (statements : list Stmt) : M (option Value) :=
  try_catch (forEach (execute fuel) statements)
            (fun what => modify (write ("Runtime error: " +:+ what +:+ newline))) ;;
  gets lastResult_.

(** A run of a whole program on a new interpreter. *)
Definition run (fuel : nat) (statements : list Stmt) : Outcome (option Value) * Interpreter :=
  interpret fuel statements Interpreter_new.


(** * Properties *)

(** ** The scope chain *)

Lemma define_insert (h : list Environment) (l : loc) (e : Environment) name value :
  h !! l = Some e →
  Environment_define h l name value
  = <[l := mkEnvironment (<[name := value]> (values_ e)) (enclosing_ e)]> h.
Proof.
  intros Hl. unfold Environment_define.
  apply list_eq. intros i.
  destruct (decide (l = i)) as [<-|Hne].
  - rewrite list_lookup_alter_eq, Hl. simpl.
    rewrite list_lookup_insert_eq; [done|]. by eapply lookup_lt_Some.
  - rewrite list_lookup_alter_ne by done. by rewrite list_lookup_insert_ne by done.
Qed.

Lemma defines_false (h : list Environment) name l e :
  h !! l = Some e → defines h name l = false → values_ e !! name = None.
Proof.
  unfold defines. intros -> H. apply bool_decide_eq_false in H.
  by apply eq_None_not_Some.
Qed.

Lemma defines_true (h : list Environment) name l e :
  h !! l = Some e → defines h name l = true → is_Some (values_ e !! name).
Proof.
  unfold defines. intros -> H. by apply bool_decide_eq_true in H.
Qed.

(** [assign] and [get] stop at the first frame of the chain that has the
    name, or at a frame without enclosing frame. *)
Lemma assign_rec_target n : ∀ (h : list Environment) self name value pre target post e,
  chain_rec n h self = pre ++ target :: post →
  Forall (λ l, defines h name l = false) pre →
  h !! target = Some e →
  defines h name target = true ∨ enclosing_ e = None →
  Environment_assign_rec n h self name value
    = Some (Environment_define h target name value)
  ∧ Environment_get_rec n h self name = Some (default VNull (values_ e !! name)).
Proof.
  induction n as [|n IH]; intros h self name value pre target post e Hc Hpre He Ht.
  - by destruct pre.
  - simpl in Hc |- *. destruct (h !! self) as [e0|] eqn:Hs; [|by destruct pre].
    destruct pre as [|l pre]; simplify_eq/=.
    + destruct (values_ e0 !! name) as [v|] eqn:Hv; [done|].
      destruct Ht as [Ht|Ht].
      * eapply defines_true in Ht; [|done]. rewrite Hv in Ht. by destruct Ht.
      * by rewrite Ht.
    + apply Forall_cons in Hpre as [Hl Hpre].
      rewrite (defines_false _ _ _ _ Hs Hl).
      destruct (enclosing_ e0) as [p|]; [|by destruct pre].
      by eapply IH.
Qed.

(** On a well-formed store the chain of a frame reaches such a frame. *)
Lemma chain_rec_target n : ∀ (h : list Environment) self name,
  wf_envs h → (self < length h)%nat → (self < n)%nat →
  ∃ pre target post e,
    chain_rec n h self = pre ++ target :: post
    ∧ Forall (λ l, defines h name l = false) pre
    ∧ h !! target = Some e
    ∧ (defines h name target = true
       ∨ (defines h name target = false ∧ post = [] ∧ enclosing_ e = None)).
Proof.
  induction n as [|n IH]; intros h self name Hwf Hlen Hn; [lia|].
  destruct (lookup_lt_is_Some_2 h self Hlen) as [e0 Hs].
  simpl. rewrite Hs.
  destruct (defines h name self) eqn:Hd.
  { exists [], self, (match enclosing_ e0 with Some p => chain_rec n h p | None => [] end), e0.
    auto. }
  destruct (enclosing_ e0) as [p|] eqn:Hp.
  - pose proof (Hwf _ _ _ Hs Hp) as Hlt.
    destruct (IH h p name Hwf) as (pre & target & post & e & -> & Hpre & He & Ht); [lia..|].
    exists (self :: pre), target, post, e. split_and!; auto.
  - exists [], self, [], e0. split_and!; auto.
Qed.

(** ** The store of frames stays well formed *)

Lemma good_mono {A} (n n' : nat) (m : M A) : (n ≤ n')%nat → good n m → good n' m.
Proof. intros Hn Hm st r st' Hrun Hinv Hlen. eapply Hm; [done..|lia]. Qed.

Lemma good_unchanged {A} (n : nat) (m : M A) :
  (∀ st, envs (snd (m st)) = envs st ∧ environment_ (snd (m st)) = environment_ st) →
  good n m.
Proof.
  intros Hm st r st' Hrun [Hwf Hcur] _. destruct (Hm st) as [He Hc].
  rewrite Hrun in He, Hc. simpl in *. unfold inv. by rewrite He, Hc.
Qed.

Lemma good_ret {A} n (a : A) : good n (ret a).
Proof. by apply good_unchanged. Qed.

Lemma good_lift {A} n (o : Outcome A) : good n (lift o).
Proof. by apply good_unchanged. Qed.

Lemma good_gets {A} n (f : Interpreter → A) : good n (gets f).
Proof. by apply good_unchanged. Qed.

Lemma good_defined {A} n (o : option A) : good n (defined o).
Proof. apply good_unchanged. intros st. by destruct o. Qed.

Lemma good_bind {A B} n (m : M A) (k : A → M B) :
  good n m → (∀ a, good n (k a)) → good n (bind m k).
Proof.
  intros Hm Hk st r st' Hrun Hinv Hn. unfold bind in Hrun.
  destruct (m st) as [[a|what| |] st1] eqn:Hm1;
    destruct (Hm _ _ _ Hm1 Hinv Hn) as [Hinv1 Hlen1]; simplify_eq; try done.
  destruct (Hk _ _ _ _ Hrun Hinv1) as [Hinv2 Hlen2]; [lia|]. split; [done|lia].
Qed.

Lemma good_try_catch {A} n (m : M A) (handler : string → M A) :
  good n m → (∀ what, good n (handler what)) → good n (try_catch m handler).
Proof.
  intros Hm Hh st r st' Hrun Hinv Hn. unfold try_catch in Hrun.
  destruct (m st) as [[a|what| |] st1] eqn:Hm1;
    destruct (Hm _ _ _ Hm1 Hinv Hn) as [Hinv1 Hlen1]; simplify_eq; try done.
  destruct (Hh _ _ _ _ Hrun Hinv1) as [Hinv2 Hlen2]; [lia|]. split; [done|lia].
Qed.

Lemma good_forEach {A} n (f : A → M unit) (l : list A) :
  (∀ x, good n (f x)) → good n (forEach f l).
Proof.
  intros Hf. induction l as [|x l IH]; simpl; [apply good_ret|].
  by apply good_bind.
Qed.

Lemma good_mapM {A B} n (f : A → M B) (l : list A) :
  (∀ x, good n (f x)) → good n (mapM f l).
Proof.
  intros Hf. induction l as [|x l IH]; simpl; [apply good_ret|].
  apply good_bind; [done|]. intros y. apply good_bind; [done|]. intros ys. apply good_ret.
Qed.

Lemma wf_envs_define (h : list Environment) (self : loc) name value :
  wf_envs h → wf_envs (Environment_define h self name value).
Proof.
  intros Hwf l e p Hl He. unfold Environment_define in Hl.
  destruct (decide (self = l)) as [->|Hne].
  - rewrite list_lookup_alter_eq in Hl.
    destruct (h !! l) as [e0|] eqn:Hl0; simplify_eq/=. by eapply Hwf.
  - rewrite list_lookup_alter_ne in Hl by done. by eapply Hwf.
Qed.

Lemma length_define (h : list Environment) (self : loc) name value :
  length (Environment_define h self name value) = length h.
Proof. apply length_alter. Qed.

Lemma good_define n (self : loc) name value : good n (define self name value).
Proof.
  intros st r st' Hrun [Hwf Hcur] _. unfold define, modify in Hrun. simplify_eq/=.
  unfold inv. simpl. rewrite length_define. split_and!; [|done..].
  by apply wf_envs_define.
Qed.

Lemma wf_envs_new (h : list Environment) (parent : loc) :
  wf_envs h → (parent < length h)%nat →
  wf_envs (h ++ [mkEnvironment ∅ (Some parent)]).
Proof.
  intros Hwf Hp l e p Hl He.
  apply lookup_app_Some in Hl as [Hl|[Hlen Hl]]; [by eapply Hwf|].
  apply list_lookup_singleton_Some in Hl as [Hz <-]. simplify_eq/=. lia.
Qed.

Lemma assign_rec_define n : ∀ (h h' : list Environment) self name value,
  Environment_assign_rec n h self name value = Some h' →
  ∃ l, h' = Environment_define h l name value.
Proof.
  induction n as [|n IH]; intros h h' self name value H; simpl in H; [done|].
  destruct (h !! self) as [e|]; [|done].
  destruct (values_ e !! name); [by simplify_eq; eexists|].
  destruct (enclosing_ e); [by eapply IH|by simplify_eq; eexists].
Qed.

(** Making a frame of the store the current one. *)
Lemma good_set_environment n (l : loc) :
  (l < n)%nat → good n (modify (set_environment l)).
Proof.
  intros Hl st r st' Hrun [Hwf Hcur] Hn. unfold modify in Hrun. simplify_eq/=.
  unfold inv. simpl. split_and!; [done|lia|done].
Qed.

(** A new frame enclosed by the current one, then [rest], which may make
    the new frame or the former one current. *)
Lemma good_new_scope {A} n (rest : loc → loc → M A) :
  (∀ current frame, (current < frame)%nat → good (S frame) (rest current frame)) →
  good n (do current <- gets environment_;
          do frame <- newEnvironment (Some current);
          rest current frame).
Proof.
  intros Hrest st r st' Hrun [Hwf Hcur] _.
  unfold bind, gets, newEnvironment in Hrun. simpl in Hrun.
  destruct (Hrest (environment_ st) (length (envs st)) Hcur _ _ _ Hrun) as [Hinv Hlen].
  - split; simpl; [by apply wf_envs_new|rewrite length_app; simpl; lia].
  - simpl. rewrite length_app. simpl. lia.
  - split; [done|]. simpl in Hlen. rewrite length_app in Hlen. lia.
Qed.

(** The current environment saved, [l] made current for [m], and the saved
    one made current again. *)
Lemma good_save_restore {A} n (l : loc) (m : M unit) (k : M A) :
  (l < n)%nat → good n m → good n k →
  good n (do previousEnv <- gets environment_;
          modify (set_environment l) ;;
          m ;;
          modify (set_environment previousEnv) ;;
          k).
Proof.
  intros Hl Hm Hk st r st' Hrun Hinv Hn.
  unfold bind at 1 in Hrun. unfold gets in Hrun.
  destruct Hinv as [Hwf Hcur].
  assert (good (length (envs st))
               (modify (set_environment l) ;; m ;;
                modify (set_environment (environment_ st)) ;; k)) as Hg.
  { apply good_bind; [apply good_set_environment; lia|]. intros _.
    apply good_bind; [by eapply good_mono|]. intros _.
    apply good_bind; [by apply good_set_environment|]. intros _.
    by eapply good_mono. }
  by eapply Hg.
Qed.

Lemma good_modify_keep n (f : Interpreter → Interpreter) :
  (∀ st, envs (f st) = envs st ∧ environment_ (f st) = environment_ st) →
  good n (modify f).
Proof. intros Hf. by apply good_unchanged. Qed.

(** The assignment of [evaluateAssign] to a variable. *)
Lemma good_assign n (name : string) (value : Value) :
  good n (do current <- gets environment_;
          do h <- gets envs;
          do h' <- defined (Environment_assign h current name value);
          modify (set_envs h')).
Proof.
  intros st r st' Hrun [Hwf Hcur] _.
  unfold bind, gets, defined, modify in Hrun. simpl in Hrun.
  destruct (Environment_assign _ _ _ _) as [h'|] eqn:Ha; simplify_eq; [|done].
  apply assign_rec_define in Ha as [l ->].
  unfold inv. simpl. rewrite length_define. split_and!; [|done..].
  by apply wf_envs_define.
Qed.

Ltac good_step :=
  first
    [ assumption
    | apply good_ret | apply good_lift | apply good_gets | apply good_defined
    | apply good_define | apply good_assign
    | apply good_forEach | apply good_mapM | apply good_try_catch
    | apply good_modify_keep; intros; by split
    | apply good_unchanged; intros; by split
    | apply good_bind
    | match goal with
      | |- good _ (match ?x with _ => _ end) => destruct x
      | |- good _ (let '(_, _) := ?x in _) => destruct x
      | H : ∀ x, good _ (?f x) |- good _ (?f _) => apply H
      | H : ∀ n x, good n (?f x) |- good _ (?f _) => apply H
      end ].

Ltac solve_good := repeat (intros; good_step).

Lemma good_callBuiltin n (b : Builtin) (args : list Value) :
  good n (callBuiltin b args).
Proof. destruct b; simpl; solve_good. Qed.

Lemma good_bindParams n (funcEnv : loc) (params : list string) :
  ∀ args, good n (bindParams funcEnv params args).
Proof. induction params as [|p params IH]; intros [|a args]; simpl; solve_good. Qed.

Section Methods.

Variable eval : Expr → M Value.
Variable exec : Stmt → M unit.
Hypothesis good_eval : ∀ n e, good n (eval e).
Hypothesis good_exec : ∀ n s, good n (exec s).

Lemma good_funcLambda n params body args : good n (funcLambda exec params body args).
Proof.
  unfold funcLambda. apply good_new_scope. intros current frame Hlt.
  apply good_bind; [apply good_bindParams|]. intros _.
  apply good_save_restore; [lia| |apply good_ret].
  apply good_try_catch; [by apply good_forEach|]. intros. apply good_ret.
Qed.

Lemma good_callFunction n f args : good n (callFunction exec f args).
Proof.
  unfold callFunction, FunctionObject_call.
  destruct (_ && _); [apply good_ret|].
  destruct (callable_ f); simpl;
    [apply good_callBuiltin|apply good_funcLambda|apply good_ret].
Qed.

Lemma good_evaluateCall n callee_ arguments_ :
  good n (evaluateCall eval exec callee_ arguments_).
Proof.
  unfold evaluateCall.
  apply good_bind; [done|]. intros callee.
  apply good_bind; [by apply good_mapM|]. intros arguments.
  destruct callee; try apply good_ret.
  - apply good_callFunction.
  - apply good_bind; [by apply good_unchanged|]. intros l.
    apply good_bind; [|intros; apply good_ret].
    destruct (getMethod _ _); [|apply good_ret].
    apply good_bind; [apply good_callFunction|intros; apply good_ret].
Qed.

Lemma good_evaluateMapPairs n pairs_ : ∀ map, good n (evaluateMapPairs eval pairs_ map).
Proof.
  induction pairs_ as [|[k v] pairs_ IH]; intros map; simpl; [apply good_ret|].
  apply good_bind; [done|]. intros key. destruct key; try apply IH.
  apply good_bind; [done|]. intros value. apply IH.
Qed.

Lemma good_evaluateMember n object_ property_ :
  good n (evaluateMember eval object_ property_).
Proof.
  unfold evaluateMember, instance_at, store_instance. solve_good.
Qed.

Lemma good_evaluateIndex n array_ index_ : good n (evaluateIndex eval array_ index_).
Proof.
  unfold evaluateIndex. solve_good.
Qed.

Lemma good_evaluateAssign n target_ value_ : good n (evaluateAssign eval target_ value_).
Proof.
  unfold evaluateAssign, instance_at, store_instance. solve_good.
Qed.

Lemma good_executeBlockStmt n statements_ : good n (executeBlockStmt exec statements_).
Proof.
  unfold executeBlockStmt. apply good_new_scope. intros current frame Hlt.
  apply good_bind; [apply good_set_environment; lia|]. intros _.
  apply good_bind; [by apply good_forEach|]. intros _.
  apply good_set_environment. lia.
Qed.

Lemma good_executeForStmt n (loop : M unit) initializer_ :
  (∀ n, good n loop) → good n (executeForStmt exec loop initializer_).
Proof.
  intros Hloop. unfold executeForStmt. apply good_new_scope. intros current frame Hlt.
  apply good_bind; [apply good_set_environment; lia|]. intros _.
  apply good_bind; [destruct initializer_; [done|apply good_ret]|]. intros _.
  apply good_bind; [done|]. intros _.
  apply good_set_environment. lia.
Qed.

Lemma good_forLoopStep n (again : M unit) condition_ increment_ body_ :
  good n again → good n (forLoopStep eval exec again condition_ increment_ body_).
Proof.
  intros Hagain. unfold forLoopStep.
  apply good_bind.
  { destruct condition_; [|apply good_ret]. solve_good. }
  intros []; [|apply good_ret].
  apply good_bind; [by apply good_forEach|]. intros _.
  apply good_bind; [|done]. destruct increment_; solve_good.
Qed.

Lemma good_executeWhileStmt n (again : M unit) condition_ body_ :
  good n again → good n (executeWhileStmt eval exec again condition_ body_).
Proof.
  intros Hagain. unfold executeWhileStmt.
  apply good_bind; [done|]. intros c. destruct (isTruthy c); [|apply good_ret].
  apply good_bind; [by apply good_forEach|done].
Qed.

End Methods.

(** Every expression and statement keeps the invariant, for every fuel. *)
Lemma good_evaluate_execute (fuel : nat) :
  (∀ n e, good n (evaluate fuel e))
  ∧ (∀ n s, good n (execute fuel s))
  ∧ (∀ n c i b, good n (forLoop fuel c i b)).
Proof.
  induction fuel as [|fuel (IHe & IHs & IHl)]; [by split_and!; intros; apply good_lift|].
  split_and!.
  - intros n [text|d|s|b| |name|l op r|op r|c args|es|ps|o p|a i|t v]; simpl.
    + apply good_ret.
    + apply good_ret.
    + apply good_ret.
    + apply good_ret.
    + apply good_ret.
    + unfold evaluateVariable. solve_good.
    + unfold evaluateBinary. solve_good.
    + unfold evaluateUnary. solve_good.
    + by apply good_evaluateCall.
    + unfold evaluateArray. solve_good.
    + by apply good_evaluateMapPairs.
    + by apply good_evaluateMember.
    + by apply good_evaluateIndex.
    + by apply good_evaluateAssign.
  - intros n [e|name init|name params body|name methods|v|c t e|c body|init c incr body
              |t x c f|ss]; simpl.
    + unfold executeExprStmt. solve_good.
    + unfold executeVarDecl. solve_good.
    + unfold executeFuncDecl. solve_good.
    + unfold executeClassDecl. solve_good.
    + unfold executeReturnStmt. solve_good.
    + unfold executeIfStmt. solve_good.
    + by apply good_executeWhileStmt.
    + by apply good_executeForStmt.
    + unfold executeTryStmt. solve_good.
    + by apply good_executeBlockStmt.
  - intros n c i b. simpl. by apply good_forLoopStep.
Qed.

Lemma inv_new : inv Interpreter_new.
Proof.
  split; [|simpl; lia].
  intros [|l] e p Hl He; vm_compute in Hl; simplify_eq/=.
Qed.

(** The states a program runs through satisfy the invariant. *)
Lemma inv_interpret (fuel : nat) (statements : list Stmt) :
  inv (snd (run fuel statements)).
Proof.
  unfold run.
  destruct (interpret fuel statements Interpreter_new) as [r st'] eqn:Hrun. simpl.
  assert (good 0 (interpret fuel statements)) as Hg.
  { unfold interpret. apply good_bind; [|intros; apply good_gets].
    apply good_try_catch; [apply good_forEach; intros; apply good_evaluate_execute|].
    intros. by apply good_modify_keep. }
  destruct (Hg _ _ _ Hrun inv_new) as [Hinv _]; [lia|done].
Qed.

(** C4 (amended).  From a state that satisfies the invariant of the store
    (as every state of a run does, [inv_interpret]), an assignment
    [name = rhs], once [rhs] is evaluated, changes exactly one frame of the
    chain of the current environment: the first one that defines [name],
    and, when no frame of the chain defines it, the outermost one (the last
    of the chain, which has no enclosing frame), where the name becomes
    defined.  Reading the name is never an error: it yields the binding of
    that frame, and null when there is none. *)
Theorem C4_assign_first_defining_frame_or_outermost
    (fuel : nat) (name : string) (rhs : Expr) (st st1 : Interpreter) (v : Value) :
  inv st →
  evaluate fuel rhs st = (Ok v, st1) →
  ∃ pre target post e,
    chain (envs st1) (environment_ st1) = pre ++ target :: post
    ∧ Forall (λ l, defines (envs st1) name l = false) pre
    ∧ envs st1 !! target = Some e
    ∧ (defines (envs st1) name target = true
       ∨ (defines (envs st1) name target = false ∧ post = [] ∧ enclosing_ e = None))
    ∧ evaluate (S fuel) (AssignExpr (VariableExpr name) rhs) st
      = (Ok v,
         set_envs (<[target := mkEnvironment (<[name := v]> (values_ e)) (enclosing_ e)]>
                     (envs st1)) st1)
    ∧ evaluate (S fuel) (VariableExpr name) st1
      = (Ok (default VNull (values_ e !! name)), st1).
Proof.
  intros Hinv Hrhs.
  destruct (proj1 (good_evaluate_execute fuel) 0%nat rhs st _ _ Hrhs Hinv)
    as [[Hwf Hcur] _]; [lia|].
  destruct (chain_rec_target (length (envs st1)) (envs st1) (environment_ st1) name)
    as (pre & target & post & e & Hchain & Hpre & He & Ht); [done..|].
  exists pre, target, post, e. split_and!; try done.
  - destruct (assign_rec_target _ _ _ name v _ _ _ _ Hchain Hpre He) as [Ha _];
      [tauto|].
    simpl. unfold evaluateAssign, bind. rewrite Hrhs. simpl.
    unfold Environment_assign. rewrite Ha. simpl.
    by rewrite (define_insert _ _ _ _ _ He).
  - destruct (assign_rec_target _ _ _ name v _ _ _ _ Hchain Hpre He) as [_ Hg];
      [tauto|].
    simpl. unfold evaluateVariable, bind. simpl.
    unfold Environment_get. by rewrite Hg.
Qed.


(** C6.  For [&&] and [||] the left operand is evaluated, then the right one
    in the state the left one left, whatever the left value is; the result
    is the Boolean combination of the truthiness of the two values, and the
    state is the one after the right operand.  Only null and the Boolean
    false are falsy; the integer 0 and the empty string are truthy. *)
Theorem C6_logical_operators_evaluate_both_operands
    (fuel : nat) (left_ right_ : Expr) (op_ : Token) (st st1 st2 : Interpreter)
    (left right : Value) :
  type op_ = AND ∨ type op_ = OR →
  evaluate fuel left_ st = (Ok left, st1) →
  evaluate fuel right_ st1 = (Ok right, st2) →
  evaluate (S fuel) (BinaryExpr left_ op_ right_) st
    = (Ok (VBoolean (if bool_decide (type op_ = AND)
                     then isTruthy left && isTruthy right
                     else isTruthy left || isTruthy right)), st2)
  ∧ (∀ v, isTruthy v = false ↔ v = VNull ∨ v = VBoolean false)
  ∧ isTruthy (VInteger 0) = true
  ∧ isTruthy (VString "") = true.
Proof.
  intros Hop Hl Hr. split_and!; try done.
  - simpl. unfold evaluateBinary, bind. rewrite Hl, Hr. simpl.
    by destruct Hop as [-> | ->].
  - intros v. split.
    + destruct v as [| | |[]| | | | | |]; simpl; intros; try done; auto.
    + by intros [-> | ->].
Qed.

(** C7 (amended).  Indexing an array never raises an error: the index access
    yields the element when the index is an Integer within the bounds, and
    null when the index is out of range, negative or not an Integer. *)
Theorem C7_index_outside_the_array_yields_null
    (fuel : nat) (array_ index_ : Expr) (st st1 st2 : Interpreter)
    (arr : list Value) (index : Value) :
  evaluate fuel array_ st = (Ok (VArray arr), st1) →
  evaluate fuel index_ st1 = (Ok index, st2) →
  Z.of_nat (length arr) < 2^63 →
  (∀ i, index = VInteger i → - 2^63 <= i < 2^63) →
  evaluate (S fuel) (IndexExpr array_ index_) st
    = (Ok match index with
          | VInteger i =>
              if (0 <=? i) && (i <? Z.of_nat (length arr))
              then default VNull (arr !! Z.to_nat i)
              else VNull
          | _ => VNull
          end, st2).
Proof.
  intros Harr Hidx Hlen Hrange.
  simpl. unfold evaluateIndex, bind. rewrite Harr, Hidx.
  destruct index as [i| | | | | | | | |]; try done.
  specialize (Hrange i eq_refl). unfold to_size_t.
  destruct (Z.leb_spec 0 i) as [Hi|Hi]; simpl.
  - rewrite Z.mod_small by lia.
    destruct (Z.ltb_spec i (Z.of_nat (length arr))) as [Hlt|Hge]; [|done].
    destruct (lookup_lt_is_Some_2 arr (Z.to_nat i)) as [x Hx]; [lia|].
    by rewrite Hx.
  - replace (i mod 2 ^ 64) with (i + 2^64).
    + destruct (Z.ltb_spec (i + 2^64) (Z.of_nat (length arr))); [lia|done].
    + apply Z.mod_unique with (q := -1); lia.
Qed.

(** The parameter loop, when there are as many arguments as parameters. *)
Lemma bindParams_define (funcEnv : loc) (params : list string) :
  ∀ (args : list Value) (st : Interpreter),
  length args = length params →
  bindParams funcEnv params args st
  = (Ok tt,
     set_envs (foldl (λ h pa, Environment_define h funcEnv pa.1 pa.2)
                     (envs st) (zip params args)) st).
Proof.
  induction params as [|p params IH]; intros [|a args] st Hlen; simplify_eq/=.
  - by destruct st.
  - unfold bind, define, modify. simpl. by rewrite IH.
Qed.

Lemma define_new_frame (h : list Environment) (m : gmap string Value) parent name value :
  Environment_define (h ++ [mkEnvironment m parent]) (length h) name value
  = h ++ [mkEnvironment (<[name := value]> m) parent].
Proof.
  unfold Environment_define.
  replace (length h) with (length h + 0)%nat at 1 by lia.
  by rewrite alter_app_r.
Qed.

Lemma defines_new_frame (h : list Environment) parent (pas : list (string * Value)) :
  ∀ m,
  foldl (λ h' pa, Environment_define h' (length h) pa.1 pa.2)
        (h ++ [mkEnvironment m parent]) pas
  = h ++ [mkEnvironment (foldl (λ m' pa, <[pa.1 := pa.2]> m') m pas) parent].
Proof.
  induction pas as [|[p a] pas IH]; intros m; simpl; [done|].
  by rewrite define_new_frame, IH.
Qed.

Lemma bound_other (pas : list (string * Value)) (q : string) :
  ∀ m : gmap string Value,
  q ∉ pas.*1 → foldl (λ m' pa, <[pa.1 := pa.2]> m') m pas !! q = m !! q.
Proof.
  induction pas as [|[p a] pas IH]; intros m Hq; simpl in *; [done|].
  apply not_elem_of_cons in Hq as [Hne Hq].
  rewrite IH by done. by apply lookup_insert_ne.
Qed.

Lemma bound_param (params : list string) :
  ∀ (args : list Value) (m : gmap string Value) (i : nat) p a,
  NoDup params → length args = length params →
  params !! i = Some p → args !! i = Some a →
  foldl (λ m' pa, <[pa.1 := pa.2]> m') m (zip params args) !! p = Some a.
Proof.
  induction params as [|p0 params IH]; intros [|a0 args] m i p a Hnd Hlen Hp Ha;
    simplify_eq/=.
  apply NoDup_cons in Hnd as [Hp0 Hnd].
  destruct i as [|i]; simplify_eq/=.
  - rewrite bound_other; [apply lookup_insert_eq|].
    rewrite fst_zip by lia. done.
  - by eapply IH.
Qed.

(** The loop binds the names in order: a name ends bound to the argument of
    its last occurrence in the parameter list. *)
Lemma bound_last_param (params : list string) :
  ∀ (args : list Value) (m : gmap string Value) (i : nat) p a,
  length args = length params →
  params !! i = Some p → args !! i = Some a →
  (∀ j, (i < j)%nat → params !! j ≠ Some p) →
  foldl (λ m' pa, <[pa.1 := pa.2]> m') m (zip params args) !! p = Some a.
Proof.
  induction params as [|p0 params IH]; intros [|a0 args] m i p a Hlen Hp Ha Hlast;
    simplify_eq/=.
  destruct i as [|i]; simplify_eq/=.
  - rewrite bound_other; [apply lookup_insert_eq|].
    rewrite fst_zip by lia. intros Hin.
    apply list_elem_of_lookup in Hin as [j Hj].
    apply (Hlast (S j)); [lia|done].
  - eapply IH; [done..|]. intros j Hj. apply (Hlast (S j)). lia.
Qed.

(** C8 (amended).  A call of a function declared by a function declaration,
    with exactly as many arguments as parameters, creates a new frame whose
    enclosing frame is the environment that is current at the call (the
    function value holds no environment of its declaration), binds the
    parameter names to the corresponding arguments in it, in the order of
    the parameter list, and nothing else, and executes the body with that
    frame as the current environment.  Each parameter name is bound to the
    argument at its position; a name that the declaration lists more than
    once is bound to the argument at its last position. *)
Theorem C8_call_binds_parameters_in_child_of_current_environment
    (fuel : nat) (name : string) (params : list string) (body : list Stmt)
    (args : list Value) (st : Interpreter) :
  length args = length params →
  ∃ frame,
    let funcEnv := length (envs st) in
    let entered := set_environment funcEnv (set_envs (envs st ++ [frame]) st) in
    enclosing_ frame = Some (environment_ st)
    ∧ values_ frame = foldl (λ m pa, <[pa.1 := pa.2]> m) ∅ (zip params args)
    ∧ (∀ i p a, params !! i = Some p → args !! i = Some a →
                (∀ j, (i < j)%nat → params !! j ≠ Some p) →
                values_ frame !! p = Some a)
    ∧ (NoDup params →
       ∀ i p a, params !! i = Some p → args !! i = Some a →
                values_ frame !! p = Some a)
    ∧ (∀ q, q ∉ params → values_ frame !! q = None)
    ∧ callFunction (execute fuel)
                   (mkFunction name (DeclFn params body) (length params)) args st
      = match forEach (execute fuel) body entered with
        | (Ok _, st') | (Throw _, st') =>
            (Ok VNull, set_environment (environment_ st) st')
        | (Undefined, st') => (Undefined, st')
        | (OutOfFuel, st') => (OutOfFuel, st')
        end.
Proof.
  intros Hlen.
  exists (mkEnvironment (foldl (λ m' pa, <[pa.1 := pa.2]> m') ∅ (zip params args))
                        (Some (environment_ st))).
  simpl. split; [done|]. split; [done|]. split; [|split; [|split]].
  - intros i p a Hp Ha Hlast. by eapply bound_last_param.
  - intros Hnd i p a Hp Ha. by eapply bound_param.
  - intros q Hq. rewrite bound_other; [done|]. by rewrite fst_zip by lia.
  - unfold callFunction, FunctionObject_call. simpl.
    rewrite Hlen, Nat.eqb_refl. simpl.
    unfold funcLambda, bind, gets, newEnvironment. simpl.
    rewrite bindParams_define by done. simpl.
    rewrite defines_new_frame.
    unfold try_catch, modify, ret. simpl.
    by destruct (forEach (execute fuel) body _) as [[[]|what| |] st'].
Qed.

(** The parameter loop does not throw. *)
Lemma bindParams_no_throw (funcEnv : loc) (params : list string) :
  ∀ (args : list Value) (st st' : Interpreter) what,
  bindParams funcEnv params args st ≠ (Throw what, st').
Proof.
  induction params as [|p params IH]; intros [|a args] st st' what; simpl; try done.
  unfold bind, define, modify. simpl. apply IH.
Qed.

(** C1, on the code: a call of a declared function never yields anything but
    null, whatever [return] statement ended its body, since the lambda
    returns its [result] variable, which is only ever initialised.  With the
    declaration of the Fibonacci function [f] executed, the call [f(6)]
    yields null, not Integer 8, and so does [one()] for [return 1;]. *)
Theorem C1_declared_function_call_yields_null
    (fuel : nat) (name : string) (params : list string) (body : list Stmt)
    (arity : nat) (args : list Value) (st : Interpreter) :
  (∃ st',
     let f := mkFunction name (DeclFn params body) arity in
     callFunction (execute fuel) f args st = (Ok VNull, st')
     ∨ callFunction (execute fuel) f args st = (Undefined, st')
     ∨ callFunction (execute fuel) f args st = (OutOfFuel, st'))
  ∧ fst (evaluate 64 (call "f" [LiteralExpr "6"])
                  (snd (execute 1 fib_decl Interpreter_new))) = Ok VNull
  ∧ fst (run 64 fib_program) = Ok (Some VNull)
  ∧ fst (run 64 return_one_program) = Ok (Some VNull).
Proof.
  split_and!; [|by vm_compute..].
  unfold callFunction, FunctionObject_call. simpl.
  destruct (negb (length args =? arity)%nat && negb (arity =? 0)%nat);
    [by eexists; left|].
  unfold callable, funcLambda, bind, gets, newEnvironment, try_catch, modify, ret.
  simpl.
  destruct (bindParams _ params args _) as [[[]|what| |] st1] eqn:Hbind; simpl.
  - destruct (forEach (execute fuel) body _) as [[[]|what| |] st2]; simpl;
      eexists; eauto.
  - by apply bindParams_no_throw in Hbind.
  - eexists; eauto.
  - eexists; eauto.
Qed.

(** C2, on the code: with the declaration of [g] executed, the call [g()]
    for [try { return 1; } finally { print("cleanup"); }] writes the quoted
    text and a newline, and yields null, not Integer 1: the [return] signal
    ends in the [catch (...)] of the try statement and does not continue
    outwards.  When the catch-body itself returns, as in [h], the
    finally-body is not executed at all: nothing is written. *)
Theorem C2_return_through_try_is_swallowed_and_finally_can_be_skipped :
  (let r := evaluate 64 (call "g" [])
                     (snd (forEach (execute 1) (take 1 finally_program) Interpreter_new)) in
   fst r = Ok VNull
   ∧ cout (snd r) = dquote +:+ "cleanup" +:+ dquote +:+ newline)
  ∧ (let r := run 64 finally_skipped_program in
     fst r = Ok (Some VNull) ∧ cout (snd r) = "").
Proof. vm_compute. repeat split. Qed.

(** C3, on the code: [+] never raises an error, and [1 + "a"] evaluates to
    null; [%] on a Float operand evaluates to null as well ([5.0 % 2]),
    while [5 % 2] is Integer 1.  The type error of the claim is raised by
    [-], [*], [/] and [%] when an operand is not a number. *)
Theorem C3_plus_and_float_modulo_yield_null_without_error (st : Interpreter) :
  evaluate 2 (BinaryExpr (LiteralExpr "1") (op PLUS "+") (StringExpr "a")) st
    = (Ok VNull, st)
  ∧ evaluate 2 (BinaryExpr (NumberExpr 5%float) (op MODULO "%") (LiteralExpr "2")) st
    = (Ok VNull, st)
  ∧ evaluate 2 (BinaryExpr (LiteralExpr "5") (op MODULO "%") (LiteralExpr "2")) st
    = (Ok (VInteger 1), st)
  ∧ (∀ left right what, binary PLUS left right ≠ Throw what)
  ∧ (∀ left right,
       is_number left && is_number right = true
       ∨ (binary MINUS left right = Throw "Operands must be numbers."
          ∧ binary MULTIPLY left right = Throw "Operands must be numbers."
          ∧ binary DIVIDE left right = Throw "Operands must be numbers."
          ∧ binary MODULO left right = Throw "Operands must be numbers.")).
Proof.
  split_and!; [by vm_compute..| |].
  - intros left right what.
    destruct left, right; simpl; try discriminate;
      unfold on_doubles; simpl; discriminate.
  - intros left right. unfold binary, checkNumberOperands.
    destruct (is_number left && is_number right); auto.
Qed.

(** C5, on the code: the catch-body runs on any exception, the [return]
    signal included ([k] writes the text of its catch-body); the name of the
    catch variable has no part in the execution of a try statement; and
    after [try { 1 - "a"; } catch (e) { m = e; }] the variable [m] is
    defined and null, [e] is bound nowhere, and the store still has the
    global frame only: no scope was created and no message bound. *)
Theorem C5_catch_runs_on_return_and_binds_no_message
    (fuel : nat) (tryBody catchBody finallyBody : list Stmt) (x y : string)
    (st : Interpreter) :
  execute fuel (TryStmt tryBody x catchBody finallyBody) st
    = execute fuel (TryStmt tryBody y catchBody finallyBody) st
  ∧ cout (snd (run 64 catch_return_program)) = dquote +:+ "caught" +:+ dquote +:+ newline
  ∧ (let st' := snd (run 64 catch_message_program) in
     cout st' = ""
     ∧ length (envs st') = 1%nat
     ∧ defines (envs st') "m" 0 = true
     ∧ Environment_get (envs st') 0 "m" = Some VNull
     ∧ defines (envs st') "e" 0 = false).
Proof.
  split_and!; [by destruct fuel|vm_compute; repeat split..].
Qed.

(** ** Decimal text of integers: [std::to_string] and [std::stoll] *)

Lemma digit_cases (d : N) :
  (d < 10)%N →
  (d = 0 ∨ d = 1 ∨ d = 2 ∨ d = 3 ∨ d = 4 ∨ d = 5 ∨ d = 6 ∨ d = 7 ∨ d = 8 ∨ d = 9)%N.
Proof. lia. Qed.

Lemma digit_of_pretty_N_char (d : N) :
  (d < 10)%N → digit_of (pretty_N_char d) = Some (Z.of_N d).
Proof.
  intros Hd. pose proof (digit_cases d Hd) as Hcases.
  repeat (destruct Hcases as [->|Hcases]; [reflexivity|]). by subst.
Qed.

(** Reading the digits that [pretty_N_go] writes in front of [s]. *)
Lemma read_digits_pretty_N_go (x : N) :
  (0 < x)%N →
  ∃ k : Z, 0 <= k ∧ ∀ acc s,
    read_digits acc (pretty_N_go x s)
    = read_digits (Some (default 0 acc * 10 ^ k + Z.of_N x)) s.
Proof.
  induction (N.lt_wf_0 x) as [x _ IH]. intros Hx.
  assert (x `mod` 10 < 10)%N as Hmod by (by apply N.mod_lt).
  pose proof (N.div_mod x 10 ltac:(done)) as Hdiv.
  destruct (decide (x `div` 10 = 0)%N) as [Hz|Hnz].
  - exists 1. split; [lia|]. intros acc s.
    rewrite pretty_N_go_step, Hz, pretty_N_go_0 by done. simpl.
    rewrite digit_of_pretty_N_char by done. f_equal. f_equal.
    rewrite Hz, N.mul_0_r, N.add_0_l in Hdiv. rewrite <- Hdiv, Z.pow_1_r. clear. lia.
  - destruct (IH (x `div` 10)%N) as (k & Hk & Hread);
      [apply N.div_lt; lia|by apply N.neq_0_lt_0|].
    exists (k + 1). split; [lia|]. intros acc s.
    rewrite pretty_N_go_step, Hread by done. simpl.
    rewrite digit_of_pretty_N_char by done. f_equal. f_equal.
    rewrite Z.pow_add_r, Z.pow_1_r by lia.
    assert (Z.of_N x = 10 * Z.of_N (x `div` 10) + Z.of_N (x `mod` 10)) as Hx'.
    { rewrite Hdiv at 1. rewrite N2Z.inj_add, N2Z.inj_mul. done. }
    lia.
Qed.

(** The decimal text of a positive number starts with a digit. *)
Lemma pretty_N_go_head (x : N) (s : string) :
  (0 < x)%N → ∃ d r, (d < 10)%N ∧ pretty_N_go x s = String (pretty_N_char d) r.
Proof.
  revert s. induction (N.lt_wf_0 x) as [x _ IH]. intros s Hx.
  rewrite pretty_N_go_step by done.
  destruct (decide (x `div` 10 = 0)%N) as [Hz|Hnz].
  - rewrite Hz, pretty_N_go_0. eexists _, _. split; [|done]. by apply N.mod_lt.
  - apply IH; [apply N.div_lt; lia|by apply N.neq_0_lt_0].
Qed.

Lemma has_dot_pretty_N_go (x : N) : ∀ s, has_dot (pretty_N_go x s) = has_dot s.
Proof.
  induction (N.lt_wf_0 x) as [x _ IH]. intros s.
  destruct (decide (0 < x)%N) as [Hx|Hx].
  - assert (x `div` 10 < x)%N as Hlt by (by apply N.div_lt).
    assert (x `mod` 10 < 10)%N as Hmod by (by apply N.mod_lt).
    rewrite pretty_N_go_step, IH by done. simpl.
    pose proof (digit_cases _ Hmod) as Hcases.
    repeat (destruct Hcases as [->|Hcases]; [reflexivity|]). by rewrite Hcases.
  - replace x with 0%N by lia. by rewrite pretty_N_go_0.
Qed.

(** The sign and digit scan of [stoll] on the text of a positive number. *)
Lemma stoll_digits (p : positive) :
  skip_spaces (pretty (N.pos p)) = pretty (N.pos p)
  ∧ read_digits None (pretty (N.pos p)) = Some (Z.pos p)
  ∧ ∃ d r, (d < 10)%N ∧ pretty (N.pos p) = String (pretty_N_char d) r.
Proof.
  unfold pretty, pretty_N. rewrite decide_False by done.
  destruct (pretty_N_go_head (N.pos p) "") as (d & r & Hd & Hhead); [lia|].
  split_and!.
  - rewrite Hhead. simpl.
    pose proof (digit_cases d Hd) as Hcases.
    repeat (destruct Hcases as [->|Hcases]; [reflexivity|]). by subst.
  - destruct (read_digits_pretty_N_go (N.pos p)) as (k & Hk & Hread); [lia|].
    by rewrite Hread.
  - eauto.
Qed.

(** [std::stoll] reads back the decimal text of every [long long]. *)
Lemma stoll_pretty (z : Z) :
  - 2^63 <= z < 2^63 → stoll (pretty z) = Some z.
Proof.
  intros Hz. destruct z as [|p|p].
  - reflexivity.
  - change (pretty (Z.pos p)) with (pretty (N.pos p)).
    destruct (stoll_digits p) as (Hskip & Hread & d & r & Hd & Hhead).
    unfold stoll. rewrite Hskip.
    assert ((let '(neg, s2) :=
               match pretty (N.pos p) with
               | String "-"%char r => (true, r)
               | String "+"%char r => (false, r)
               | _ => (false, pretty (N.pos p))
               end in (neg, s2)) = (false, pretty (N.pos p))) as Hsign.
    { rewrite Hhead.
      pose proof (digit_cases d Hd) as Hcases.
      repeat (destruct Hcases as [->|Hcases]; [reflexivity|]). by subst. }
    destruct (match pretty (N.pos p) with
              | String "-"%char r => (true, r)
              | String "+"%char r => (false, r)
              | _ => (false, pretty (N.pos p))
              end) as [neg s2]. simplify_eq.
    rewrite Hread.
    destruct (Z.leb_spec (- 2^63) (Z.pos p)), (Z.ltb_spec (Z.pos p) (2^63));
      simpl; (done || lia).
  - change (pretty (Z.neg p)) with (String "-"%char (pretty (N.pos p))).
    destruct (stoll_digits p) as (Hskip & Hread & d & r & Hd & Hhead).
    assert (∀ r, stoll (String "-"%char r)
                 = match read_digits None r with
                   | None => None
                   | Some n => if (- 2^63 <=? - n) && (- n <? 2^63)
                               then Some (- n) else None
                   end) as Hneg by done.
    rewrite Hneg, Hread.
    change (- Z.pos p) with (Z.neg p).
    destruct (Z.leb_spec (- 2^63) (Z.neg p)), (Z.ltb_spec (Z.neg p) (2^63));
      simpl; (done || lia).
Qed.
(** ** Scope frames: define, assign and get *)

Lemma get_rec_define_other n : ∀ (h : list Environment) (self l : loc) name name' value,
  name' ≠ name →
  Environment_get_rec n (Environment_define h self name value) l name'
  = Environment_get_rec n h l name'.
Proof.
  induction n as [|n IH]; intros h self l name name' value Hne; simpl; [done|].
  unfold Environment_define at 1.
  destruct (decide (self = l)) as [->|Hl].
  - rewrite list_lookup_alter_eq. destruct (h !! l) as [e|]; simpl; [|done].
    rewrite lookup_insert_ne by done.
    destruct (values_ e !! name'); [done|]. destruct (enclosing_ e); [|done].
    by apply IH.
  - rewrite list_lookup_alter_ne by done. destruct (h !! l) as [e|]; [|done].
    destruct (values_ e !! name'); [done|]. destruct (enclosing_ e); [|done].
    by apply IH.
Qed.

Lemma get_define_same (h : list Environment) (self : loc) (name : string) (value : Value) :
  (self < length h)%nat →
  Environment_get (Environment_define h self name value) self name = Some value.
Proof.
  intros Hself. unfold Environment_get. rewrite length_define.
  destruct (length h) as [|n] eqn:Hn; [lia|]. simpl.
  unfold Environment_define. rewrite list_lookup_alter_eq.
  destruct (lookup_lt_is_Some_2 h self) as [e ->]; [lia|]. simpl.
  by rewrite lookup_insert_eq.
Qed.

(** X1.  [define] then [get] on the same frame yields the value, whatever the
    frame held and whatever the enclosing frames hold; every other name
    reads as before, from every frame. *)
Theorem define_then_get (h : list Environment) (self : loc) (name : string) (value : Value) :
  (self < length h)%nat →
  Environment_get (Environment_define h self name value) self name = Some value
  ∧ length (Environment_define h self name value) = length h
  ∧ ∀ l name', name' ≠ name →
      Environment_get (Environment_define h self name value) l name'
      = Environment_get h l name'.
Proof.
  intros Hself. split_and!.
  - by apply get_define_same.
  - apply length_define.
  - intros l name' Hne. unfold Environment_get. rewrite length_define.
    by apply get_rec_define_other.
Qed.

Lemma assign_rec_then_get n : ∀ (h h' : list Environment) (self : loc) name value,
  Environment_assign_rec n h self name value = Some h' →
  Environment_get_rec n h' self name = Some value.
Proof.
  induction n as [|n IH]; intros h h' self name value Ha; [done|].
  pose proof (assign_rec_define _ _ _ _ _ _ Ha) as [l ->].
  simpl in Ha |- *. destruct (h !! self) as [e|] eqn:He; [|done].
  unfold Environment_define at 1.
  destruct (decide (l = self)) as [->|Hl].
  - rewrite list_lookup_alter_eq, He. simpl. by rewrite lookup_insert_eq.
  - rewrite list_lookup_alter_ne, He by done.
    destruct (values_ e !! name) eqn:Hv.
    { simplify_eq. apply (f_equal (λ h0, h0 !! self)) in Ha.
      unfold Environment_define in Ha.
      rewrite list_lookup_alter_eq, list_lookup_alter_ne, He in Ha by done.
      simplify_eq/=. apply (f_equal values_) in Ha. simpl in Ha.
      apply (f_equal (λ m, m !! name)) in Ha.
      rewrite lookup_insert_eq, Hv in Ha. by simplify_eq. }
    destruct (enclosing_ e) as [p|].
    + by eapply IH.
    + simplify_eq. apply (f_equal (λ h0, h0 !! self)) in Ha.
      unfold Environment_define in Ha.
      rewrite list_lookup_alter_eq, list_lookup_alter_ne, He in Ha by done.
      simplify_eq/=. apply (f_equal values_) in Ha. simpl in Ha.
      apply (f_equal (λ m, m !! name)) in Ha.
      rewrite lookup_insert_eq, Hv in Ha. by simplify_eq.
Qed.

(** X2.  On a well-formed store an assignment always succeeds; the name then
    reads as the assigned value from the frame of the assignment, no frame
    is added or relinked, and every other name reads as before. *)
Theorem assign_then_get (h : list Environment) (self : loc) (name : string) (value : Value) :
  wf_envs h → (self < length h)%nat →
  ∃ h',
    Environment_assign h self name value = Some h'
    ∧ Environment_get h' self name = Some value
    ∧ length h' = length h
    ∧ wf_envs h'
    ∧ (∀ l, enclosing_ <$> h' !! l = enclosing_ <$> h !! l)
    ∧ ∀ l name', name' ≠ name → Environment_get h' l name' = Environment_get h l name'.
Proof.
  intros Hwf Hself.
  destruct (chain_rec_target (length h) h self name Hwf Hself)
    as (pre & target & post & e & Hchain & Hpre & He & Ht); [lia|].
  destruct (assign_rec_target _ _ _ name value _ _ _ _ Hchain Hpre He) as [Ha _];
    [destruct Ht as [Ht|(_ & _ & Ht)]; [by left|by right]|].
  exists (Environment_define h target name value).
  assert (length (Environment_define h target name value) = length h) as Hlen
    by apply length_define.
  split_and!; [done| |done| | |].
  - unfold Environment_get. rewrite Hlen. by eapply assign_rec_then_get.
  - by apply wf_envs_define.
  - intros l. unfold Environment_define.
    destruct (decide (target = l)) as [->|Hne].
    + rewrite list_lookup_alter_eq. by destruct (h !! l).
    + by rewrite list_lookup_alter_ne.
  - intros l name' Hne. unfold Environment_get. rewrite Hlen.
    by apply get_rec_define_other.
Qed.

(** A binding made in a frame is not seen from the frames created before
    it. *)
Lemma get_rec_define_above n : ∀ (h : list Environment) (self l : loc) name name' value,
  wf_envs h → (self < l)%nat →
  Environment_get_rec n (Environment_define h l name value) self name'
  = Environment_get_rec n h self name'.
Proof.
  induction n as [|n IH]; intros h self l name name' value Hwf Hlt; simpl; [done|].
  unfold Environment_define at 1. rewrite list_lookup_alter_ne by lia.
  destruct (h !! self) as [e|] eqn:He; [|done].
  destruct (values_ e !! name'); [done|].
  destruct (enclosing_ e) as [p|] eqn:Hp; [|done].
  apply IH; [done|]. pose proof (Hwf _ _ _ He Hp). lia.
Qed.

(** ** Object equality *)

(** X3.  [==] on two arrays holds exactly when they have the same length and
    equal elements at every position. *)
Theorem array_equals_elementwise (xs ys : list Value) :
  isEqual (VArray xs) (VArray ys) = true
  ↔ Forall2 (λ x y, equals x y = true) xs ys.
Proof.
  unfold isEqual. simpl.
  revert ys. induction xs as [|x xs IH]; intros [|y ys]; simpl.
  - split; [constructor|done].
  - split; [done|inversion 1].
  - split; [done|inversion 1].
  - rewrite andb_true_iff, Nat.eqb_eq. split.
    + intros [Hlen Hall]. apply andb_true_iff in Hall as [Hxy Hrest].
      constructor; [done|]. apply IH. rewrite andb_true_iff, Nat.eqb_eq.
      split; [lia|done].
    + intros Hall. apply Forall2_cons in Hall as [Hxy Hrest].
      apply IH in Hrest. rewrite andb_true_iff, Nat.eqb_eq in Hrest.
      destruct Hrest as [Hlen Hrest]. split; [lia|].
      by rewrite Hxy, Hrest.
Qed.

(** X4.  [==] on integers, strings, Booleans, null and instances holds exactly
    when the other value is the same; an Integer is never equal to a Float,
    whatever their numeric values; two functions are equal as soon as they
    have the same name. *)
Theorem equality_of_primitives :
  (∀ x b, isEqual (VInteger x) b = true ↔ b = VInteger x)
  ∧ (∀ s b, isEqual (VString s) b = true ↔ b = VString s)
  ∧ (∀ x b, isEqual (VBoolean x) b = true ↔ b = VBoolean x)
  ∧ (∀ b, isEqual VNull b = true ↔ b = VNull)
  ∧ (∀ l b, isEqual (VInstance l) b = true ↔ b = VInstance l)
  ∧ (∀ z d, isEqual (VInteger z) (VFloat d) = false
            ∧ isEqual (VFloat d) (VInteger z) = false)
  ∧ (∀ f g, isEqual (VFunction f) (VFunction g) = true ↔ fn_name f = fn_name g).
Proof.
  unfold isEqual. split_and!.
  - intros x [y|y|y|y| |ys|m'|g|d|l']; simpl; try (split; [done|intros; simplify_eq]).
    rewrite Z.eqb_eq. split; [by intros ->|by intros [= ->]].
  - intros x [y|y|y|y| |ys|m'|g|d|l']; simpl; try (split; [done|intros; simplify_eq]).
    rewrite String.eqb_eq. split; [by intros ->|by intros [= ->]].
  - intros x [y|y|y|y| |ys|m'|g|d|l']; simpl; try (split; [done|intros; simplify_eq]).
    rewrite Bool.eqb_true_iff. split; [by intros ->|by intros [= ->]].
  - intros [y|y|y|y| |ys|m'|g|d|l']; simpl; try (split; [done|intros; simplify_eq]).
    done.
  - intros x [y|y|y|y| |ys|m'|g|d|l']; simpl; try (split; [done|intros; simplify_eq]).
    rewrite Nat.eqb_eq. split; [by intros ->|by intros [= ->]].
  - done.
  - intros f g. simpl. apply String.eqb_eq.
Qed.

(** ** Instances *)

Lemma get_after_set (i : InstanceObject) (property : string) (value : Value) :
  InstanceObject_get (InstanceObject_set i property value) property
  = (value, InstanceObject_set i property value).
Proof.
  unfold InstanceObject_get, InstanceObject_set. simpl. by rewrite lookup_insert_eq.
Qed.

(** X5.  A field that has been set is what [get] returns, also when the class
    has a method of that name, and that [get] leaves the instance as it is;
    the other fields are untouched by the [set]. *)
Theorem instance_set_then_get (i : InstanceObject) (property : string) (value : Value) :
  InstanceObject_get (InstanceObject_set i property value) property
  = (value, InstanceObject_set i property value)
  ∧ class_ (InstanceObject_set i property value) = class_ i
  ∧ ∀ q, q ≠ property →
      fields_ (InstanceObject_set i property value) !! q = fields_ i !! q.
Proof.
  split; [apply get_after_set|]. split; [done|].
  intros q Hq. by apply lookup_insert_ne.
Qed.
(** ** Arithmetic *)

Lemma wrap64_exact (z : Z) : - 2^63 <= z < 2^63 → wrap64 z = z.
Proof. intros Hz. unfold wrap64. rewrite Z.mod_small; lia. Qed.

(** X6.  [+], [-] and [*] on two Integers give the Integer of the exact
    result whenever the result of that operation fits a [long long]: there
    is no rounding and no promotion to Float. *)
Theorem integer_arithmetic_is_exact (a b : Z) :
  (- 2^63 <= a + b < 2^63 →
   binary PLUS (VInteger a) (VInteger b) = Ok (VInteger (a + b)))
  ∧ (- 2^63 <= a - b < 2^63 →
     binary MINUS (VInteger a) (VInteger b) = Ok (VInteger (a - b)))
  ∧ (- 2^63 <= a * b < 2^63 →
     binary MULTIPLY (VInteger a) (VInteger b) = Ok (VInteger (a * b))).
Proof.
  split_and!; intros Hfits; simpl; by rewrite wrap64_exact.
Qed.

(** X7.  [/] on two numbers always gives a Float and never fails, also when the
    divisor is zero and when both operands are Integers. *)
Theorem division_always_yields_float (left right : Value) :
  is_number left = true → is_number right = true →
  ∃ d, binary DIVIDE left right = Ok (VFloat d).
Proof.
  destruct left, right; simpl; try done; intros _ _; eauto.
Qed.

(** X8.  [%] on two Integers is the remainder of the division that truncates
    towards zero: it has the sign of the dividend and is smaller than the
    divisor in absolute value. *)
Theorem modulo_is_truncating_remainder (a b : Z) :
  b ≠ 0 → ¬ (a = - 2^63 ∧ b = -1) →
  ∃ r,
    binary MODULO (VInteger a) (VInteger b) = Ok (VInteger r)
    ∧ a = b * (a ÷ b) + r
    ∧ Z.abs r < Z.abs b
    ∧ 0 <= r * a.
Proof.
  intros Hb Hmin. exists (Z.rem a b). split_and!.
  - simpl. destruct (Z.eqb_spec b 0); [done|]. simpl.
    destruct (Z.eqb_spec a (- 2^63)), (Z.eqb_spec b (-1)); simpl; try done.
    by destruct Hmin.
  - by apply Z.quot_rem'.
  - by apply Z.rem_bound_abs.
  - by apply Z.rem_sign_mul.
Qed.

(** ** Native functions *)

(** X9.  [str] of an Integer is its decimal text, and [int] reads that text back:
    [int(str(n))] is [n] for every Integer. *)
Theorem int_of_str_round_trip (z : Z) (st : Interpreter) :
  - 2^63 <= z < 2^63 →
  callBuiltin Bstr [VInteger z] st = (Ok (VString (pretty z)), st)
  ∧ callBuiltin Bint [VString (pretty z)] st = (Ok (VInteger z), st).
Proof.
  intros Hz. split; [done|]. simpl. unfold ret. by rewrite stoll_pretty.
Qed.

(** X10.  A literal whose text is the decimal form of a number evaluates to that
    Integer when it fits a [long long]; a larger literal is not an error and
    not a Float: it evaluates to the String of its own text. *)
Theorem integer_literal_value (n : Z) :
  0 <= n →
  evaluateLiteral (pretty n)
  = if n <? 2^63 then VInteger n else VString (pretty n).
Proof.
  intros Hn. unfold evaluateLiteral.
  assert (has_dot (pretty n) = false) as ->.
  { destruct n as [|p|p]; [done| |lia].
    change (pretty (Z.pos p)) with (pretty (N.pos p)).
    unfold pretty, pretty_N. rewrite decide_False by done.
    by rewrite has_dot_pretty_N_go. }
  destruct (Z.ltb_spec n (2^63)) as [Hlt|Hge].
  - rewrite stoll_pretty by lia. done.
  - destruct n as [|p|p]; [lia| |lia].
    change (pretty (Z.pos p)) with (pretty (N.pos p)).
    destruct (stoll_digits p) as (Hskip & Hread & d & r & Hd & Hhead).
    unfold stoll. rewrite Hskip.
    assert (match pretty (N.pos p) with
            | String "-"%char r => (true, r)
            | String "+"%char r => (false, r)
            | _ => (false, pretty (N.pos p))
            end = (false, pretty (N.pos p))) as ->.
    { rewrite Hhead. pose proof (digit_cases d Hd) as Hcases.
      repeat (destruct Hcases as [->|Hcases]; [reflexivity|]). by subst. }
    rewrite Hread.
    destruct (Z.leb_spec (- 2^63) (Z.pos p)), (Z.ltb_spec (Z.pos p) (2^63));
      simpl; (done || lia).
Qed.

(** X12.  [type] names the ten kinds of values with ten different Strings: two
    values get the same name exactly when they are of the same kind. *)
Theorem type_names_are_distinct (v w : Value) (st : Interpreter) :
  ∃ s t,
    callBuiltin Btype [v] st = (Ok (VString s), st)
    ∧ callBuiltin Btype [w] st = (Ok (VString t), st)
    ∧ (s = t ↔ type_of v = type_of w).
Proof.
  eexists _, _. split_and!; [done..|].
  destruct v, w; simpl; split; intros H; (done || discriminate H).
Qed.
(** ** Expressions leave the current environment in place *)

Lemma keeps_unchanged {A} (m : M A) :
  (∀ st, environment_ (snd (m st)) = environment_ st) → keeps m.
Proof. intros Hm st r st' Hrun _. specialize (Hm st). by rewrite Hrun in Hm. Qed.

Lemma keeps_defined {A} (o : option A) : keeps (defined o).
Proof. apply keeps_unchanged. intros st. by destruct o. Qed.

Lemma keeps_lift {A} (o : Outcome A) : keeps (lift o).
Proof. by apply keeps_unchanged. Qed.

Lemma keeps_bind {A B} (m : M A) (k : A → M B) :
  keeps m → (∀ a, keeps (k a)) → keeps (bind m k).
Proof.
  intros Hm Hk st r st' Hrun Hr. unfold bind in Hrun.
  destruct (m st) as [[a|what| |] st1] eqn:Hm1; simplify_eq; try done.
  - rewrite (Hk _ _ _ _ Hrun Hr). by eapply Hm.
  - by eapply Hm.
Qed.

Lemma keeps_mapM {A B} (f : A → M B) (l : list A) :
  (∀ x, keeps (f x)) → keeps (mapM f l).
Proof.
  intros Hf. induction l as [|x l IH]; simpl; [by apply keeps_unchanged|].
  apply keeps_bind; [done|]. intros y. apply keeps_bind; [done|]. intros ys.
  by apply keeps_unchanged.
Qed.

Ltac keeps_step :=
  first
    [ assumption
    | apply keeps_mapM
    | apply keeps_defined
    | apply keeps_lift
    | apply keeps_unchanged; intros; simpl; done
    | apply keeps_unchanged; intros ?; simpl; by case_match
    | apply keeps_bind
    | match goal with
      | |- keeps (match ?x with _ => _ end) => destruct x
      | H : ∀ x, keeps (?f x) |- keeps (?f _) => apply H
      end ].

Ltac solve_keeps := repeat (intros; keeps_step).

Lemma keeps_callBuiltin (b : Builtin) (args : list Value) : keeps (callBuiltin b args).
Proof. destruct b; simpl; solve_keeps. Qed.

Lemma bindParams_environment (funcEnv : loc) (params : list string) :
  ∀ args st, environment_ (snd (bindParams funcEnv params args st)) = environment_ st.
Proof.
  induction params as [|p params IH]; intros [|a args] st; simpl; try done.
  unfold bind, define, modify. simpl.
  destruct (bindParams _ _ _ _) as [[[]|what| |] st'] eqn:Hb;
    specialize (IH args (set_envs (Environment_define (envs st) funcEnv p a) st));
    by rewrite Hb in IH.
Qed.

(** A call of a declared function ends in the environment of the caller,
    whether its body returns or throws. *)
Lemma keeps_funcLambda (exec : Stmt → M unit) params body args :
  keeps (funcLambda exec params body args).
Proof.
  intros st r st' Hrun Hr.
  unfold funcLambda, bind, gets, newEnvironment in Hrun. simpl in Hrun.
  pose proof (bindParams_environment (length (envs st)) params args
    (set_envs (envs st ++ [mkEnvironment ∅ (Some (environment_ st))]) st)) as Hb.
  destruct (bindParams _ _ _ _) as [[[]|what| |] st1]; simplify_eq/=; try done.
  unfold try_catch, modify, ret in Hrun. simpl in Hrun.
  destruct (forEach exec body _) as [[[]|what| |] st2]; by simplify_eq/=.
Qed.

Lemma keeps_callFunction (exec : Stmt → M unit) f args : keeps (callFunction exec f args).
Proof.
  unfold callFunction, FunctionObject_call.
  destruct (_ && _); [by apply keeps_unchanged|].
  destruct (callable_ f); simpl;
    [apply keeps_callBuiltin|apply keeps_funcLambda|by apply keeps_unchanged].
Qed.

Lemma keeps_evaluateMapPairs (eval : Expr → M Value) pairs_ :
  (∀ e, keeps (eval e)) → ∀ map, keeps (evaluateMapPairs eval pairs_ map).
Proof.
  intros He. induction pairs_ as [|[k v] pairs_ IH]; intros map; simpl;
    [by apply keeps_unchanged|].
  apply keeps_bind; [done|]. intros key. destruct key; try apply IH.
  apply keeps_bind; [done|]. intros value. apply IH.
Qed.

Lemma keeps_evaluate (fuel : nat) (e : Expr) : keeps (evaluate fuel e).
Proof.
  revert e. induction fuel as [|fuel Hk]; intros e; [apply keeps_lift|].
  destruct e as [text|d|s|b| |name|l op r|op r|c args|es|ps|o p|a i|t v]; simpl.
  - by apply keeps_unchanged.
  - by apply keeps_unchanged.
  - by apply keeps_unchanged.
  - by apply keeps_unchanged.
  - by apply keeps_unchanged.
  - unfold evaluateVariable. solve_keeps.
  - unfold evaluateBinary. solve_keeps.
  - unfold evaluateUnary. solve_keeps.
  - unfold evaluateCall.
    apply keeps_bind; [done|]. intros callee.
    apply keeps_bind; [by apply keeps_mapM|]. intros arguments.
    destruct callee; try by apply keeps_unchanged.
    + apply keeps_callFunction.
    + apply keeps_bind; [by apply keeps_unchanged|]. intros l0.
      apply keeps_bind; [|intros; by apply keeps_unchanged].
      destruct (getMethod _ _); [|by apply keeps_unchanged].
      apply keeps_bind; [apply keeps_callFunction|intros; by apply keeps_unchanged].
  - unfold evaluateArray. solve_keeps.
  - by apply keeps_evaluateMapPairs.
  - unfold evaluateMember, instance_at, store_instance. solve_keeps.
  - unfold evaluateIndex. solve_keeps.
  - unfold evaluateAssign, instance_at, store_instance. solve_keeps.
Qed.

(** X13.  An expression that yields a value or throws leaves the current
    environment as it was: the calls made on the way have all restored it. *)
Theorem expression_keeps_current_environment (fuel : nat) (e : Expr)
    (st st' : Interpreter) (r : Outcome Value) :
  evaluate fuel e st = (r, st') → completes r → environment_ st' = environment_ st.
Proof. apply keeps_evaluate. Qed.

(** ** Statements and programs *)

Lemma forEach_throw {A} (f : A → M unit) (prefix : list A) (x : A) (rest : list A) :
  ∀ st st1 st2 what,
  forEach f prefix st = (Ok tt, st1) →
  f x st1 = (Throw what, st2) →
  forEach f (prefix ++ x :: rest) st = (Throw what, st2).
Proof.
  induction prefix as [|y prefix IH]; intros st st1 st2 what Hpre Hx; simpl in *.
  - unfold ret in Hpre. simplify_eq. unfold bind. by rewrite Hx.
  - unfold bind in *. destruct (f y st) as [[[]|w| |] st0]; simplify_eq.
    by eapply IH.
Qed.

(** X14.  A program stops at the first statement that throws: the statements
    before it have run, the ones after it are not executed, the message is
    written behind [Runtime error: ], and the last result stored so far is
    returned.  [interpret] itself never throws. *)
Theorem interpret_stops_at_first_error
    (fuel : nat) (prefix : list Stmt) (s : Stmt) (rest : list Stmt)
    (st st1 st2 : Interpreter) (what : string) :
  forEach (execute fuel) prefix st = (Ok tt, st1) →
  execute fuel s st1 = (Throw what, st2) →
  interpret fuel (prefix ++ s :: rest) st
    = (Ok (lastResult_ st2), write ("Runtime error: " +:+ what +:+ newline) st2)
  ∧ ∀ statements st0 what0, fst (interpret fuel statements st0) ≠ Throw what0.
Proof.
  intros Hpre Hs. split.
  - unfold interpret, bind, try_catch.
    by rewrite (forEach_throw _ _ _ rest _ _ _ _ Hpre Hs).
  - intros statements st0 what0. unfold interpret, bind, try_catch.
    by destruct (forEach (execute fuel) statements st0) as [[[]|w| |] st'].
Qed.

(** X15.  The comparisons [<=], [>] and [>=] check that their operands are numbers
    and then yield null: an [if] on such a comparison executes its
    else-branch and a [while] on it never executes its body, whatever the
    two numbers are. *)
Theorem unfinished_comparisons_are_falsy
    (fuel : nat) (l r : Expr) (op_ : Token) (st st1 st2 : Interpreter)
    (vl vr : Value) (thenBranch elseBranch body : list Stmt) :
  type op_ = LESS_EQUAL ∨ type op_ = GREATER ∨ type op_ = GREATER_EQUAL →
  evaluate fuel l st = (Ok vl, st1) →
  evaluate fuel r st1 = (Ok vr, st2) →
  is_number vl = true → is_number vr = true →
  evaluate (S fuel) (BinaryExpr l op_ r) st = (Ok VNull, st2)
  ∧ execute (S (S fuel)) (IfStmt (BinaryExpr l op_ r) thenBranch elseBranch) st
    = forEach (execute (S fuel)) elseBranch st2
  ∧ execute (S (S fuel)) (WhileStmt (BinaryExpr l op_ r) body) st = (Ok tt, st2).
Proof.
  intros Hop Hl Hr Hnl Hnr.
  assert (evaluate (S fuel) (BinaryExpr l op_ r) st = (Ok VNull, st2)) as Hcmp.
  { simpl. unfold evaluateBinary, bind. rewrite Hl, Hr. unfold lift.
    destruct Hop as [-> | [-> | ->]]; simpl;
      unfold checkNumberOperands; by rewrite Hnl, Hnr. }
  split_and!; [done| |].
  - change (execute (S (S fuel)) (IfStmt (BinaryExpr l op_ r) thenBranch elseBranch))
      with (executeIfStmt (evaluate (S fuel)) (execute (S fuel))
                          (BinaryExpr l op_ r) thenBranch elseBranch).
    unfold executeIfStmt, bind. by rewrite Hcmp.
  - change (execute (S (S fuel)) (WhileStmt (BinaryExpr l op_ r) body))
      with (executeWhileStmt (evaluate (S fuel)) (execute (S fuel))
              (execute (S fuel) (WhileStmt (BinaryExpr l op_ r) body))
              (BinaryExpr l op_ r) body).
    unfold executeWhileStmt, bind. by rewrite Hcmp.
Qed.

(** X16.  After [var name = e;] the name reads as the value of [e], and after
    [var name;] as null, whatever the enclosing frames bind the name to. *)
Theorem var_declaration_then_read
    (fuel : nat) (name : string) (e : Expr) (st st1 : Interpreter) (v : Value) :
  inv st →
  evaluate fuel e st = (Ok v, st1) →
  (∃ st2,
     execute (S fuel) (VarDecl name (Some e)) st = (Ok tt, st2)
     ∧ ∀ n, evaluate (S n) (VariableExpr name) st2 = (Ok v, st2))
  ∧ (∃ st3,
       execute (S fuel) (VarDecl name None) st = (Ok tt, st3)
       ∧ ∀ n, evaluate (S n) (VariableExpr name) st3 = (Ok VNull, st3)).
Proof.
  intros Hinv He.
  destruct (proj1 (good_evaluate_execute fuel) 0%nat e st _ _ He Hinv)
    as [[Hwf1 Hcur1] _]; [lia|].
  split.
  - eexists. split.
    + simpl. unfold executeVarDecl, bind. rewrite He. reflexivity.
    + intros n. simpl. unfold evaluateVariable, bind, gets, defined. simpl.
      by rewrite (get_define_same (envs st1) (environment_ st1) name v Hcur1).
  - destruct Hinv as [Hwf Hcur]. eexists. split.
    + simpl. unfold executeVarDecl, bind. reflexivity.
    + intros n. simpl. unfold evaluateVariable, bind, gets, defined. simpl.
      by rewrite (get_define_same (envs st) (environment_ st) name VNull Hcur).
Qed.

(** X17.  A variable declared in a block is the block's own: when the block is
    left, the current environment is the one from before the block, and the
    name reads there as it did before the declaration was made. *)
Theorem block_variable_is_local
    (fuel : nat) (name : string) (e : Expr) (st st2 : Interpreter) (v : Value) :
  inv st →
  evaluate fuel e
    (set_environment (length (envs st))
       (set_envs (envs st ++ [mkEnvironment ∅ (Some (environment_ st))]) st))
    = (Ok v, st2) →
  ∃ st3,
    execute (S (S fuel)) (BlockStmt [VarDecl name (Some e)]) st = (Ok tt, st3)
    ∧ environment_ st3 = environment_ st
    ∧ Environment_get (envs st3) (environment_ st) name
      = Environment_get (envs st2) (environment_ st) name.
Proof.
  intros [Hwf Hcur] He.
  set (entered := set_environment _ _) in He.
  assert (inv entered) as Hentered.
  { split; simpl; [by apply wf_envs_new|]. rewrite length_app. simpl. lia. }
  destruct (proj1 (good_evaluate_execute fuel) 0%nat e entered _ _ He Hentered)
    as [[Hwf2 Hcur2] Hlen2]; [lia|].
  pose proof (keeps_evaluate fuel e _ _ _ He I) as Henv2.
  simpl in Henv2, Hlen2. rewrite length_app in Hlen2. simpl in Hlen2.
  eexists. split_and!.
  - change (execute (S (S fuel)) (BlockStmt [VarDecl name (Some e)]))
      with (executeBlockStmt (execute (S fuel)) [VarDecl name (Some e)]).
    unfold executeBlockStmt, bind, gets, newEnvironment, modify. simpl.
    fold entered. unfold executeVarDecl, bind. rewrite He. reflexivity.
  - done.
  - simpl. rewrite Henv2. unfold Environment_get. rewrite length_define.
    apply get_rec_define_above; [done|lia].
Qed.

(** X18.  A field written through one variable is read back through every
    variable bound to the same instance, and the read changes nothing. *)
Theorem field_write_is_seen_through_aliases
    (fuel : nat) (x y property : string) (rhs : Expr) (st st1 : Interpreter)
    (v : Value) (l : loc) (i : InstanceObject) :
  evaluate (S fuel) rhs st = (Ok v, st1) →
  Environment_get (envs st1) (environment_ st1) x = Some (VInstance l) →
  Environment_get (envs st1) (environment_ st1) y = Some (VInstance l) →
  instances st1 !! l = Some i →
  ∃ st2,
    evaluate (S (S fuel)) (AssignExpr (MemberExpr (VariableExpr x) property) rhs) st
      = (Ok v, st2)
    ∧ instances st2 = <[l := InstanceObject_set i property v]> (instances st1)
    ∧ ∀ n, evaluate (S (S n)) (MemberExpr (VariableExpr y) property) st2 = (Ok v, st2).
Proof.
  intros Hrhs Hx Hy Hi.
  assert (l < length (instances st1))%nat as Hl by (by eapply lookup_lt_Some).
  eexists. split_and!.
  - change (evaluate (S (S fuel)) (AssignExpr (MemberExpr (VariableExpr x) property) rhs))
      with (evaluateAssign (evaluate (S fuel)) (MemberExpr (VariableExpr x) property) rhs).
    unfold evaluateAssign, bind. rewrite Hrhs. simpl.
    unfold evaluateVariable, bind, gets, defined. simpl. rewrite Hx. simpl.
    unfold instance_at, bind, gets, defined. simpl. rewrite Hi. simpl.
    reflexivity.
  - done.
  - intros n. simpl.
    unfold evaluateMember, bind, evaluateVariable, bind, gets, defined. simpl.
    rewrite Hy. simpl. unfold instance_at, bind, gets, defined. simpl.
    rewrite list_lookup_insert_eq by done.
    rewrite get_after_set. simpl.
    unfold store_instance, modify. simpl. rewrite list_insert_insert_eq.
    by destruct st1.
Qed.


(** ** The exceptions of the interpreter *)

















(** X21.  A block that an exception leaves does not make the environment from
    before the block current again: a try statement around the block
    completes in the state of the throw, with the frame of the block as the
    current environment and the variable of the block readable. *)
Theorem error_in_block_leaves_block_scope_current
    (fuel : nat) (name x : string) (e bad : Expr) (st st1 st2 : Interpreter)
    (v : Value) (what : string) :
  evaluate fuel e
    (set_environment (length (envs st))
       (set_envs (envs st ++ [mkEnvironment ∅ (Some (environment_ st))]) st))
    = (Ok v, st1) →
  evaluate fuel bad
    (set_envs (Environment_define (envs st1) (environment_ st1) name v) st1)
    = (Throw what, st2) →
  execute (S (S fuel)) (BlockStmt [VarDecl name (Some e); ExprStmt bad]) st
    = (Throw what, st2)
  ∧ execute (S (S (S fuel)))
      (TryStmt [BlockStmt [VarDecl name (Some e); ExprStmt bad]] x [] []) st
    = (Ok tt, st2)
  ∧ environment_ st2 = length (envs st).
Proof.
  intros He Hbad.
  assert (execute (S (S fuel)) (BlockStmt [VarDecl name (Some e); ExprStmt bad]) st
          = (Throw what, st2)) as Hblock.
  { change (execute (S (S fuel)) (BlockStmt [VarDecl name (Some e); ExprStmt bad]))
      with (executeBlockStmt (execute (S fuel)) [VarDecl name (Some e); ExprStmt bad]).
    unfold executeBlockStmt, bind, gets, newEnvironment, modify. simpl.
    unfold executeVarDecl, bind. rewrite He. simpl.
    unfold executeExprStmt, bind. by rewrite Hbad. }
  split_and!; [done| |].
  - change (execute (S (S (S fuel))) (TryStmt ?t x ?c ?f))
      with (executeTryStmt (execute (S (S fuel))) t c f).
    unfold executeTryStmt, try_catch, bind.
    change (forEach (execute (S (S fuel))) [?s] st) with
      (bind (execute (S (S fuel)) s) (λ _, ret tt) st).
    unfold bind. by rewrite Hblock.
  - rewrite (keeps_evaluate fuel bad _ _ _ Hbad I). simpl.
    by rewrite (keeps_evaluate fuel e _ _ _ He I).
Qed.
End Evaluator.

(** ** Runs at concrete inputs *)

Lemma C4_assign_first_defining_frame_or_outermost_witness :
  inv in_two_frames
  ∧ evaluate stod_unused to_string_unused 1 (LiteralExpr "1") in_two_frames
    = (Ok (VInteger 1), in_two_frames)
  ∧ ∃ pre target post e,
      chain (envs in_two_frames) (environment_ in_two_frames) = pre ++ target :: post
      ∧ Forall (λ l, defines (envs in_two_frames) "x" l = false) pre
      ∧ envs in_two_frames !! target = Some e
      ∧ (defines (envs in_two_frames) "x" target = true
         ∨ (defines (envs in_two_frames) "x" target = false
            ∧ post = [] ∧ enclosing_ e = None))
      ∧ evaluate stod_unused to_string_unused 2
                 (AssignExpr (VariableExpr "x") (LiteralExpr "1")) in_two_frames
        = (Ok (VInteger 1),
           set_envs (<[target := mkEnvironment (<["x" := VInteger 1]> (values_ e))
                                               (enclosing_ e)]>
                       (envs in_two_frames)) in_two_frames)
      ∧ evaluate stod_unused to_string_unused 2 (VariableExpr "x") in_two_frames
        = (Ok (default VNull (values_ e !! "x")), in_two_frames).
Proof.
  assert (inv in_two_frames) as Hinv.
  { split; [|simpl; lia]. intros [|[|l]] e p H1 H2; simplify_eq/=. lia. }
  split; [exact Hinv|]. split; [reflexivity|].
  apply (C4_assign_first_defining_frame_or_outermost
           stod_unused to_string_unused 1 "x" (LiteralExpr "1")
           in_two_frames in_two_frames (VInteger 1));
    [exact Hinv|reflexivity].
Defined.

(** C4, the claim as stated fails: in a chain of two frames of which none
    defines [x], the assignment [x = 1] made in the inner frame leaves that
    frame without [x] and defines [x] in the outer one. *)
Lemma C4_assignment_defines_in_outermost_frame_counterexample :
  chain two_frames 1 = [1; 0]%nat
  ∧ defines two_frames "x" 1 = false
  ∧ defines two_frames "x" 0 = false
  ∧ ∃ h',
      envs (snd (evaluate stod_unused to_string_unused 2
                          (AssignExpr (VariableExpr "x") (LiteralExpr "1"))
                          in_two_frames)) = h'
      ∧ Environment_assign two_frames 1 "x" (VInteger 1) = Some h'
      ∧ defines h' "x" 1 = false
      ∧ defines h' "x" 0 = true.
Proof.
  split_and!; [reflexivity..|].
  eexists. split_and!; [reflexivity|by vm_compute..].
Qed.


(** [false && (x = 1)]: the assignment on the right is made. *)
Lemma C6_logical_operators_evaluate_both_operands_witness :
  let right_ := AssignExpr (VariableExpr "x") (LiteralExpr "1") in
  let st2 := snd (evaluate stod_unused to_string_unused 2 right_ Interpreter_new) in
  (type (op AND "&&") = AND ∨ type (op AND "&&") = OR)
  ∧ evaluate stod_unused to_string_unused 2 (BoolExpr false) Interpreter_new
    = (Ok (VBoolean false), Interpreter_new)
  ∧ evaluate stod_unused to_string_unused 2 right_ Interpreter_new = (Ok (VInteger 1), st2)
  ∧ evaluate stod_unused to_string_unused 3
             (BinaryExpr (BoolExpr false) (op AND "&&") right_) Interpreter_new
    = (Ok (VBoolean false), st2)
  ∧ Environment_get (envs st2) 0 "x" = Some (VInteger 1)
  ∧ Environment_get (envs Interpreter_new) 0 "x" = Some VNull.
Proof.
  intros right_ st2.
  split; [by left|]. split; [reflexivity|]. split; [by vm_compute|].
  split; [|split; by vm_compute].
  apply (C6_logical_operators_evaluate_both_operands
           stod_unused to_string_unused 2 (BoolExpr false) right_ (op AND "&&")
           Interpreter_new Interpreter_new st2 (VBoolean false) (VInteger 1));
    [by left|reflexivity|by vm_compute].
Defined.

Lemma C7_index_outside_the_array_yields_null_witness :
  evaluate stod_unused to_string_unused 2 two_elements Interpreter_new
    = (Ok (VArray [VInteger 10; VInteger 20]), Interpreter_new)
  ∧ evaluate stod_unused to_string_unused 2 (LiteralExpr "5") Interpreter_new
    = (Ok (VInteger 5), Interpreter_new)
  ∧ Z.of_nat (length [VInteger 10; VInteger 20]) < 2^63
  ∧ (∀ i, VInteger 5 = VInteger i → - 2^63 <= i < 2^63)
  ∧ evaluate stod_unused to_string_unused 3 (IndexExpr two_elements (LiteralExpr "5"))
             Interpreter_new
    = (Ok VNull, Interpreter_new).
Proof.
  assert (∀ i, VInteger 5 = VInteger i → - 2^63 <= i < 2^63) as Hrange.
  { intros i [= <-]. lia. }
  split; [reflexivity|]. split; [reflexivity|]. split; [simpl; lia|].
  split; [exact Hrange|].
  apply (C7_index_outside_the_array_yields_null
           stod_unused to_string_unused 2 two_elements (LiteralExpr "5")
           Interpreter_new Interpreter_new Interpreter_new
           [VInteger 10; VInteger 20] (VInteger 5));
    [reflexivity|reflexivity|simpl; lia|exact Hrange].
Defined.

(** C7, the claim as stated fails: on the array [[10, 20]] the index 5, the
    index -1 and the index ["a"] all evaluate to null, with no error. *)
Lemma C7_index_out_of_range_is_no_error_counterexample :
  fst (evaluate stod_unused to_string_unused 3
                (IndexExpr two_elements (LiteralExpr "5")) Interpreter_new)
    = Ok VNull
  ∧ fst (evaluate stod_unused to_string_unused 3
                  (IndexExpr two_elements (UnaryExpr (op MINUS "-") (LiteralExpr "1")))
                  Interpreter_new)
    = Ok VNull
  ∧ fst (evaluate stod_unused to_string_unused 3
                  (IndexExpr two_elements (StringExpr "a")) Interpreter_new)
    = Ok VNull.
Proof. split_and!; reflexivity. Qed.

(** [f(a, b, a)] called with 1, 2 and 3 in the inner of two frames. *)
Lemma C8_call_binds_parameters_in_child_of_current_environment_witness :
  let body := [ExprStmt (AssignExpr (VariableExpr "r") (VariableExpr "y"))] in
  length [VInteger 1; VInteger 2; VInteger 3] = length ["a"; "b"; "a"]
  ∧ ∃ frame,
      let funcEnv := length (envs in_two_frames) in
      let entered :=
        set_environment funcEnv (set_envs (envs in_two_frames ++ [frame]) in_two_frames) in
      enclosing_ frame = Some (environment_ in_two_frames)
      ∧ values_ frame
        = foldl (λ m pa, <[pa.1 := pa.2]> m) ∅
                (zip ["a"; "b"; "a"] [VInteger 1; VInteger 2; VInteger 3])
      ∧ (∀ i p a, ["a"; "b"; "a"] !! i = Some p →
                  [VInteger 1; VInteger 2; VInteger 3] !! i = Some a →
                  (∀ j, (i < j)%nat → ["a"; "b"; "a"] !! j ≠ Some p) →
                  values_ frame !! p = Some a)
      ∧ (NoDup ["a"; "b"; "a"] →
         ∀ i p a, ["a"; "b"; "a"] !! i = Some p →
                  [VInteger 1; VInteger 2; VInteger 3] !! i = Some a →
                  values_ frame !! p = Some a)
      ∧ (∀ q, q ∉ ["a"; "b"; "a"] → values_ frame !! q = None)
      ∧ callFunction stod_unused to_string_unused (execute stod_unused to_string_unused 3)
                     (mkFunction "f" (DeclFn ["a"; "b"; "a"] body) (length ["a"; "b"; "a"]))
                     [VInteger 1; VInteger 2; VInteger 3] in_two_frames
        = match forEach (execute stod_unused to_string_unused 3) body entered with
          | (Ok _, st') | (Throw _, st') =>
              (Ok VNull, set_environment (environment_ in_two_frames) st')
          | (Undefined, st') => (Undefined, st')
          | (OutOfFuel, st') => (OutOfFuel, st')
          end.
Proof.
  intros body.
  split; [reflexivity|].
  apply (C8_call_binds_parameters_in_child_of_current_environment
           stod_unused to_string_unused 3 "f" ["a"; "b"; "a"] body
           [VInteger 1; VInteger 2; VInteger 3] in_two_frames).
  reflexivity.
Defined.

(** C8, the claim as stated fails: [f] is declared while the global frame
    (address 0) is current and called inside a block whose frame (address 1)
    holds [y = 7].  The frame of the call (address 2) encloses the block's
    frame, not the frame of the declaration, so the body of [f] reads
    [y = 7] and the global [r] becomes 7. *)
Lemma C8_call_frame_encloses_caller_counterexample :
  let declared :=
    snd (forEach (execute stod_unused to_string_unused 1) (take 1 scope_program)
                 Interpreter_new) in
  let st := snd (run stod_unused to_string_unused 64 scope_program) in
  environment_ declared = 0%nat
  ∧ defines (envs declared) "f" 0 = true
  ∧ envs st !! 1%nat = Some (mkEnvironment {["y" := VInteger 7]} (Some 0%nat))
  ∧ envs st !! 2%nat = Some (mkEnvironment {["a" := VInteger 1]} (Some 1%nat))
  ∧ Environment_get (envs st) 0 "r" = Some (VInteger 7).
Proof. vm_compute. repeat split. Qed.

(** ** The scanner *)

Module LexerFacts.
Import Lexer.

Lemma later_refl lx : later lx lx.
Proof. by split. Qed.

Lemma later_trans lx1 lx2 lx3 : later lx1 lx2 → later lx2 lx3 → later lx1 lx3.
Proof. intros [? ?] [? ?]. split; [congruence|lia]. Qed.

Lemma later_advance lx : later lx (snd (advance lx)).
Proof. split; simpl; [done|lia]. Qed.

Lemma later_match c lx : later lx (snd (match_ c lx)).
Proof.
  unfold match_. destruct (isAtEnd lx); [apply later_refl|].
  destruct (negb _); [apply later_refl|]. split; simpl; [done|lia].
Qed.

Lemma later_addTokenLiteral ty s lx : later lx (addTokenLiteral ty s lx).
Proof. by split. Qed.

Lemma later_addToken ty lx : later lx (addToken ty lx).
Proof. by split. Qed.

Lemma later_while fuel cond body :
  (∀ lx, later lx (body lx)) → ∀ lx, later lx (while fuel cond body lx).
Proof.
  intros Hbody. induction fuel as [|fuel IH]; intros lx; simpl; [apply later_refl|].
  destruct (cond lx); [|apply later_refl].
  eapply later_trans; [apply Hbody|apply IH].
Qed.

Lemma later_loop cond body :
  (∀ lx, later lx (body lx)) → ∀ lx, later lx (loop cond body lx).
Proof. intros Hbody lx. by apply later_while. Qed.

Lemma while_stops fuel cond body :
  (∀ lx, cond lx = true → (current_ lx < String.length (source_ lx))%nat) →
  (∀ lx, cond lx = true →
         source_ (body lx) = source_ lx ∧ (current_ lx < current_ (body lx))%nat) →
  ∀ lx, (String.length (source_ lx) - current_ lx ≤ fuel)%nat →
        cond (while fuel cond body lx) = false.
Proof.
  intros Hcond Hbody. induction fuel as [|fuel IH]; intros lx Hfuel; simpl.
  - destruct (cond lx) eqn:Hc; [|done]. apply Hcond in Hc. lia.
  - destruct (cond lx) eqn:Hc; [|done].
    destruct (Hbody lx Hc) as [Hs Hlt]. apply Hcond in Hc.
    apply IH. rewrite Hs. lia.
Qed.

Lemma later_string lx : later lx (string_ lx).
Proof.
  unfold string_.
  set (lx1 := loop _ _ lx).
  assert (later lx lx1) as H1.
  { apply later_loop. intros lx0. destruct (Ascii.eqb _ _); by split; simpl; [|lia]. }
  destruct (isAtEnd lx1); [done|].
  eapply later_trans; [done|].
  eapply later_trans; [apply later_advance|apply later_addTokenLiteral].
Qed.

Lemma later_number lx : later lx (number lx).
Proof.
  unfold number.
  assert (∀ lx0, later lx0 (loop (λ lx, isDigit (peek lx)) (λ lx, snd (advance lx)) lx0)) as Hd.
  { apply later_loop, later_advance. }
  eapply later_trans; [apply Hd|].
  eapply later_trans; [|apply later_addTokenLiteral].
  destruct (_ && _); [|apply later_refl].
  eapply later_trans; [apply later_advance|apply Hd].
Qed.

Lemma later_identifier lx : later lx (identifier lx).
Proof.
  unfold identifier.
  eapply later_trans; [apply later_loop, later_advance|apply later_addToken].
Qed.

Lemma later_two c yes no lx : later lx (two c yes no lx).
Proof.
  unfold two. pose proof (later_match c lx) as H.
  destruct (match_ c lx) as [b lx']. simpl in H.
  eapply later_trans; [done|apply later_addToken].
Qed.

Lemma later_on_match c lx (f g : Lexer.t → Lexer.t) :
  (∀ l, later l (f l)) → (∀ l, later l (g l)) →
  later lx (let '(b, l) := match_ c lx in if b : bool then f l else g l).
Proof.
  intros Hf Hg. pose proof (later_match c lx) as H.
  destruct (match_ c lx) as [[] l]; simpl in H; eapply later_trans; eauto.
Qed.

Lemma scanToken_progress lx :
  source_ (scanToken lx) = source_ lx ∧ (current_ lx < current_ (scanToken lx))%nat.
Proof.
  assert (later (snd (advance lx)) (scanToken lx)) as [Hs Hc];
    [|by simpl in *; split; [|lia]].
  unfold scanToken.
  destruct (advance lx) as [c lx1] eqn:Hadv. simpl. clear Hadv.
  assert (later lx1 (if Ascii.eqb c quote_char then string_ lx1
                     else if isDigit c then number lx1
                     else if isAlpha c then identifier lx1 else lx1)) as Hdefault.
  { destruct (Ascii.eqb c quote_char); [apply later_string|].
    destruct (isDigit c); [apply later_number|].
    destruct (isAlpha c); [apply later_identifier|apply later_refl]. }
  destruct c as [[] [] [] [] [] [] [] []];
    first [ exact Hdefault
          | apply later_addToken
          | apply later_two
          | apply later_refl
          | by split
          | apply later_on_match; intros l;
            first [ apply later_addToken | apply later_refl
                  | apply later_loop, later_advance ] ].
Qed.

Lemma scanTokens_reaches_the_end (lx : Lexer.t) :
  isAtEnd (loop (λ lx, negb (isAtEnd lx))
                (λ lx, scanToken (mk (source_ lx) (tokens_ lx) (current_ lx) (current_ lx)
                                     (line_ lx) (column_ lx))) lx) = true.
Proof.
  apply negb_false_iff. unfold loop.
  apply (while_stops _ (λ lx, negb (isAtEnd lx))); [| |lia].
  - intros lx0 H. apply negb_true_iff in H. unfold isAtEnd in H.
    by apply Nat.leb_gt in H.
  - intros lx0 _. apply (scanToken_progress (mk _ _ _ _ _ _)).
Qed.

(** The loops inside [string], [number], [identifier] and the comment case
    end with their condition false: the bound of [loop] is never what stops
    them. *)
Lemma loop_stops (cond : Lexer.t → bool) (body : Lexer.t → Lexer.t) (lx : Lexer.t) :
  (∀ lx, cond lx = true → isAtEnd lx = false) →
  (∀ lx, source_ (body lx) = source_ lx ∧ current_ (body lx) = S (current_ lx)) →
  cond (loop cond body lx) = false.
Proof.
  intros Hcond Hbody. unfold loop. apply while_stops; [| |lia].
  - intros lx0 H. apply Hcond in H. unfold isAtEnd in H. by apply Nat.leb_gt in H.
  - intros lx0 _. destruct (Hbody lx0) as [-> ->]. split; [done|lia].
Qed.

End LexerFacts.

(** C9, on the code: the scanner has no error result.  Every source text
    yields a token list that ends with the end-of-input token; the text of
    an unterminated string literal is dropped up to the end of the source,
    and a character that starts no token is skipped like white space. *)
Theorem C9_scanner_drops_malformed_input_silently (source : string) :
  (∃ tokens l c, Lexer.scan source = tokens ++ [mkToken EOF_TOKEN "" l c])
  ∧ Lexer.scan (dquote +:+ "abc") = [mkToken EOF_TOKEN "" 1 5]
  ∧ Lexer.scan "@" = [mkToken EOF_TOKEN "" 1 2]
  ∧ Lexer.scan "x @ y" = Lexer.scan "x   y"
  ∧ Lexer.scan ("var s = " +:+ dquote +:+ "abc; print(s);")
    = [mkToken VAR "var" 1 1; mkToken IDENTIFIER "s" 1 5; mkToken EQUAL "=" 1 7;
       mkToken EOF_TOKEN "" 1 24].
Proof.
  split_and!; [|by vm_compute..].
  unfold Lexer.scan, Lexer.scanTokens. eauto.
Qed.

(** ** Further runs at concrete inputs *)

Lemma define_then_get_witness :
  (1 < length two_frames)%nat
  ∧ Environment_get (Environment_define two_frames 1 "x" (VInteger 1)) 1 "x"
    = Some (VInteger 1)
  ∧ length (Environment_define two_frames 1 "x" (VInteger 1)) = length two_frames
  ∧ ∀ l name', name' ≠ "x" →
      Environment_get (Environment_define two_frames 1 "x" (VInteger 1)) l name'
      = Environment_get two_frames l name'.
Proof.
  split; [simpl; lia|].
  apply (define_then_get two_frames 1 "x" (VInteger 1)). simpl; lia.
Defined.

Lemma assign_then_get_witness :
  wf_envs two_frames
  ∧ (1 < length two_frames)%nat
  ∧ ∃ h',
      Environment_assign two_frames 1 "x" (VInteger 1) = Some h'
      ∧ Environment_get h' 1 "x" = Some (VInteger 1)
      ∧ length h' = length two_frames
      ∧ wf_envs h'
      ∧ (∀ l, enclosing_ <$> h' !! l = enclosing_ <$> two_frames !! l)
      ∧ ∀ l name', name' ≠ "x" →
          Environment_get h' l name' = Environment_get two_frames l name'.
Proof.
  assert (wf_envs two_frames) as Hwf.
  { intros [|[|l]] e p H1 H2; simplify_eq/=. lia. }
  split; [exact Hwf|]. split; [simpl; lia|].
  apply (assign_then_get two_frames 1 "x" (VInteger 1)); [exact Hwf|simpl; lia].
Defined.

(** [2^62 + 4] is exact although [2^62 * 4] does not fit. *)
Lemma integer_arithmetic_is_exact_witness :
  - 2^63 <= 2^62 + 4 < 2^63
  ∧ ¬ (- 2^63 <= 2^62 * 4 < 2^63)
  ∧ binary PLUS (VInteger (2^62)) (VInteger 4) = Ok (VInteger (2^62 + 4)).
Proof.
  split; [lia|]. split; [lia|].
  apply (proj1 (integer_arithmetic_is_exact (2^62) 4)). lia.
Defined.

(** [1 / 0] is a Float. *)
Lemma division_always_yields_float_witness :
  is_number (VInteger 1) = true ∧ is_number (VInteger 0) = true
  ∧ ∃ d, binary DIVIDE (VInteger 1) (VInteger 0) = Ok (VFloat d).
Proof.
  split; [reflexivity|]. split; [reflexivity|].
  apply (division_always_yields_float (VInteger 1) (VInteger 0)); reflexivity.
Defined.

(** [-7 % 2] is [-1]. *)
Lemma modulo_is_truncating_remainder_witness :
  2 ≠ 0 ∧ ¬ (-7 = - 2^63 ∧ 2 = -1)
  ∧ ∃ r,
      binary MODULO (VInteger (-7)) (VInteger 2) = Ok (VInteger r)
      ∧ -7 = 2 * (-7 ÷ 2) + r
      ∧ Z.abs r < Z.abs 2
      ∧ 0 <= r * -7.
Proof.
  split; [lia|]. split; [lia|].
  apply (modulo_is_truncating_remainder (-7) 2); lia.
Defined.

Lemma int_of_str_round_trip_witness :
  - 2^63 <= -42 < 2^63
  ∧ callBuiltin stod_unused to_string_unused Bstr [VInteger (-42)] Interpreter_new
    = (Ok (VString (pretty (-42))), Interpreter_new)
  ∧ callBuiltin stod_unused to_string_unused Bint [VString (pretty (-42))] Interpreter_new
    = (Ok (VInteger (-42)), Interpreter_new).
Proof.
  split; [lia|].
  apply (int_of_str_round_trip stod_unused to_string_unused (-42) Interpreter_new). lia.
Defined.

(** The literal [9223372036854775808] is a String. *)
Lemma integer_literal_value_witness :
  0 <= 2^63
  ∧ evaluateLiteral stod_unused (pretty (2^63))
    = if 2^63 <? 2^63 then VInteger (2^63) else VString (pretty (2^63)).
Proof.
  split; [lia|]. apply (integer_literal_value stod_unused (2^63)). lia.
Defined.

(** A call of [f] made in the inner of two frames ends there. *)
Lemma expression_keeps_current_environment_witness :
  let st := snd (execute stod_unused to_string_unused 1 fib_decl in_two_frames) in
  let r := evaluate stod_unused to_string_unused 64 (call "f" [LiteralExpr "3"]) st in
  completes (fst r)
  ∧ environment_ st = 1%nat
  ∧ (length (envs st) < length (envs (snd r)))%nat
  ∧ environment_ (snd r) = environment_ st.
Proof.
  intros st r.
  assert (completes (fst r)) as Hr by (vm_compute; exact I).
  split; [exact Hr|]. split; [reflexivity|]. split; [vm_compute; lia|].
  apply (expression_keeps_current_environment stod_unused to_string_unused 64
           (call "f" [LiteralExpr "3"]) st (snd r) (fst r));
    [apply surjective_pairing|exact Hr].
Defined.

(** [print("a"); -"x"; print("b");] *)
Lemma interpret_stops_at_first_error_witness :
  let st1 := snd (forEach (execute stod_unused to_string_unused 3) [print_ "a"]
                          Interpreter_new) in
  forEach (execute stod_unused to_string_unused 3) [print_ "a"] Interpreter_new
    = (Ok tt, st1)
  ∧ execute stod_unused to_string_unused 3 negate_string st1
    = (Throw "Operand must be a number.", st1)
  ∧ cout st1 = dquote +:+ "a" +:+ dquote +:+ newline
  ∧ interpret stod_unused to_string_unused 3
              ([print_ "a"] ++ negate_string :: [print_ "b"]) Interpreter_new
    = (Ok (lastResult_ st1),
       write ("Runtime error: " +:+ "Operand must be a number." +:+ newline) st1).
Proof.
  intros st1.
  assert (forEach (execute stod_unused to_string_unused 3) [print_ "a"] Interpreter_new
          = (Ok tt, st1)) as H1 by (vm_compute; reflexivity).
  assert (execute stod_unused to_string_unused 3 negate_string st1
          = (Throw "Operand must be a number.", st1)) as H2 by (vm_compute; reflexivity).
  split; [exact H1|]. split; [exact H2|]. split; [vm_compute; reflexivity|].
  exact (proj1 (interpret_stops_at_first_error stod_unused to_string_unused 3
                  [print_ "a"] negate_string [print_ "b"] Interpreter_new st1 st1
                  "Operand must be a number." H1 H2)).
Defined.

(** [if (1 > 2) ... else ...] and [while (2 >= 1) ...] *)
Lemma unfinished_comparisons_are_falsy_witness :
  (type (op GREATER_EQUAL ">=") = LESS_EQUAL
   ∨ type (op GREATER_EQUAL ">=") = GREATER
   ∨ type (op GREATER_EQUAL ">=") = GREATER_EQUAL)
  ∧ evaluate stod_unused to_string_unused 1 (LiteralExpr "2") Interpreter_new
    = (Ok (VInteger 2), Interpreter_new)
  ∧ evaluate stod_unused to_string_unused 1 (LiteralExpr "1") Interpreter_new
    = (Ok (VInteger 1), Interpreter_new)
  ∧ is_number (VInteger 2) = true ∧ is_number (VInteger 1) = true
  ∧ evaluate stod_unused to_string_unused 2
             (BinaryExpr (LiteralExpr "2") (op GREATER_EQUAL ">=") (LiteralExpr "1"))
             Interpreter_new
    = (Ok VNull, Interpreter_new)
  ∧ execute stod_unused to_string_unused 3
            (IfStmt (BinaryExpr (LiteralExpr "2") (op GREATER_EQUAL ">=") (LiteralExpr "1"))
                    [print_ "yes"] [print_ "no"]) Interpreter_new
    = forEach (execute stod_unused to_string_unused 2) [print_ "no"] Interpreter_new
  ∧ execute stod_unused to_string_unused 3
            (WhileStmt (BinaryExpr (LiteralExpr "2") (op GREATER_EQUAL ">=")
                                   (LiteralExpr "1"))
                       [print_ "again"]) Interpreter_new
    = (Ok tt, Interpreter_new).
Proof.
  split; [by right; right|]. split; [reflexivity|]. split; [reflexivity|].
  split; [reflexivity|]. split; [reflexivity|].
  apply (unfinished_comparisons_are_falsy stod_unused to_string_unused 1
           (LiteralExpr "2") (LiteralExpr "1") (op GREATER_EQUAL ">=")
           Interpreter_new Interpreter_new Interpreter_new (VInteger 2) (VInteger 1)
           [print_ "yes"] [print_ "no"] [print_ "again"]);
    [by right; right|reflexivity..].
Defined.

(** [var x = 7;] and [var x;] *)
Lemma var_declaration_then_read_witness :
  inv Interpreter_new
  ∧ evaluate stod_unused to_string_unused 1 (LiteralExpr "7") Interpreter_new
    = (Ok (VInteger 7), Interpreter_new)
  ∧ (∃ st2,
       execute stod_unused to_string_unused 2 (VarDecl "x" (Some (LiteralExpr "7")))
               Interpreter_new = (Ok tt, st2)
       ∧ ∀ n, evaluate stod_unused to_string_unused (S n) (VariableExpr "x") st2
              = (Ok (VInteger 7), st2))
  ∧ (∃ st3,
       execute stod_unused to_string_unused 2 (VarDecl "x" None) Interpreter_new
         = (Ok tt, st3)
       ∧ ∀ n, evaluate stod_unused to_string_unused (S n) (VariableExpr "x") st3
              = (Ok VNull, st3)).
Proof.
  split; [exact inv_new|]. split; [reflexivity|].
  apply (var_declaration_then_read stod_unused to_string_unused 1 "x" (LiteralExpr "7")
           Interpreter_new Interpreter_new (VInteger 7));
    [exact inv_new|reflexivity].
Defined.

(** [{ var x = 7; }] *)
Lemma block_variable_is_local_witness :
  let entered :=
    set_environment (length (envs Interpreter_new))
      (set_envs (envs Interpreter_new ++ [mkEnvironment ∅ (Some (environment_ Interpreter_new))])
                Interpreter_new) in
  inv Interpreter_new
  ∧ evaluate stod_unused to_string_unused 1 (LiteralExpr "7") entered
    = (Ok (VInteger 7), entered)
  ∧ ∃ st3,
      execute stod_unused to_string_unused 3
              (BlockStmt [VarDecl "x" (Some (LiteralExpr "7"))]) Interpreter_new
        = (Ok tt, st3)
      ∧ environment_ st3 = environment_ Interpreter_new
      ∧ Environment_get (envs st3) (environment_ Interpreter_new) "x"
        = Environment_get (envs entered) (environment_ Interpreter_new) "x".
Proof.
  intros entered. split; [exact inv_new|]. split; [reflexivity|].
  apply (block_variable_is_local stod_unused to_string_unused 1 "x" (LiteralExpr "7")
           Interpreter_new entered (VInteger 7));
    [exact inv_new|reflexivity].
Defined.

(** [a.w = 3] is read as [b.w]. *)
Lemma field_write_is_seen_through_aliases_witness :
  evaluate stod_unused to_string_unused 2 (LiteralExpr "3") aliased
    = (Ok (VInteger 3), aliased)
  ∧ Environment_get (envs aliased) (environment_ aliased) "a" = Some (VInstance 0)
  ∧ Environment_get (envs aliased) (environment_ aliased) "b" = Some (VInstance 0)
  ∧ instances aliased !! 0%nat = Some (instantiate shape_class)
  ∧ ∃ st2,
      evaluate stod_unused to_string_unused 3
               (AssignExpr (MemberExpr (VariableExpr "a") "w") (LiteralExpr "3")) aliased
        = (Ok (VInteger 3), st2)
      ∧ instances st2
        = <[0%nat := InstanceObject_set (instantiate shape_class) "w" (VInteger 3)]>
            (instances aliased)
      ∧ ∀ n, evaluate stod_unused to_string_unused (S (S n))
                      (MemberExpr (VariableExpr "b") "w") st2
             = (Ok (VInteger 3), st2).
Proof.
  split; [reflexivity|]. split; [vm_compute; reflexivity|].
  split; [vm_compute; reflexivity|]. split; [reflexivity|].
  apply (field_write_is_seen_through_aliases stod_unused to_string_unused 1 "a" "b" "w"
           (LiteralExpr "3") aliased aliased (VInteger 3) 0%nat (instantiate shape_class));
    [reflexivity|vm_compute; reflexivity|vm_compute; reflexivity|reflexivity].
Defined.



(** [try { { var x = 1; -"a"; } } catch (e) { }]: afterwards [x] reads 1. *)
Lemma error_in_block_leaves_block_scope_current_witness :
  let bad := UnaryExpr (op MINUS "-") (StringExpr "a") in
  let entered :=
    set_environment (length (envs Interpreter_new))
      (set_envs (envs Interpreter_new ++ [mkEnvironment ∅ (Some (environment_ Interpreter_new))])
                Interpreter_new) in
  let st2 :=
    set_envs (Environment_define (envs entered) (environment_ entered) "x" (VInteger 1))
             entered in
  evaluate stod_unused to_string_unused 2 (LiteralExpr "1") entered
    = (Ok (VInteger 1), entered)
  ∧ evaluate stod_unused to_string_unused 2 bad st2
    = (Throw "Operand must be a number.", st2)
  ∧ evaluate stod_unused to_string_unused 1 (VariableExpr "x") st2 = (Ok (VInteger 1), st2)
  ∧ evaluate stod_unused to_string_unused 1 (VariableExpr "x") Interpreter_new
    = (Ok VNull, Interpreter_new)
  ∧ execute stod_unused to_string_unused 4
            (BlockStmt [VarDecl "x" (Some (LiteralExpr "1")); ExprStmt bad]) Interpreter_new
    = (Throw "Operand must be a number.", st2)
  ∧ execute stod_unused to_string_unused 5
            (TryStmt [BlockStmt [VarDecl "x" (Some (LiteralExpr "1")); ExprStmt bad]]
                     "e" [] []) Interpreter_new
    = (Ok tt, st2)
  ∧ environment_ st2 = length (envs Interpreter_new).
Proof.
  intros bad entered st2.
  split; [reflexivity|]. split; [reflexivity|].
  split; [vm_compute; reflexivity|]. split; [vm_compute; reflexivity|].
  apply (error_in_block_leaves_block_scope_current stod_unused to_string_unused 2
           "x" "e" (LiteralExpr "1") bad Interpreter_new entered st2 (VInteger 1)
           "Operand must be a number."); reflexivity.
Defined.

(** ** The token list and the line counter of the scanner *)

Module LexerMore.
Import Lexer LexerFacts.
(** *** Tokens produced by one step *)

Lemma emits_refl lx : emits lx lx.
Proof. by left. Qed.

Lemma emits_after lx lx1 lx2 :
  tokens_ lx1 = tokens_ lx → emits lx1 lx2 → emits lx lx2.
Proof. intros H [H2|(tk & H2 & Htk)]; [left|right; exists tk]; by rewrite H2, H. Qed.

Lemma emits_addTokenLiteral ty s lx : ty ≠ EOF_TOKEN → emits lx (addTokenLiteral ty s lx).
Proof. intros Hty. right. by eexists. Qed.

Lemma emits_addToken ty lx : ty ≠ EOF_TOKEN → emits lx (addToken ty lx).
Proof. apply emits_addTokenLiteral. Qed.

Lemma tokens_match c lx : tokens_ (snd (match_ c lx)) = tokens_ lx.
Proof. unfold match_. destruct (isAtEnd lx); [done|]. by destruct (negb _). Qed.

Lemma tokens_while fuel cond body :
  (∀ lx, tokens_ (body lx) = tokens_ lx) →
  ∀ lx, tokens_ (while fuel cond body lx) = tokens_ lx.
Proof.
  intros Hbody. induction fuel as [|fuel IH]; intros lx; simpl; [done|].
  destruct (cond lx); [|done]. by rewrite IH.
Qed.

Lemma tokens_loop cond body :
  (∀ lx, tokens_ (body lx) = tokens_ lx) →
  ∀ lx, tokens_ (loop cond body lx) = tokens_ lx.
Proof. intros Hbody lx. by apply tokens_while. Qed.

Lemma identifierType_not_eof (text : string) : identifierType text ≠ EOF_TOKEN.
Proof.
  unfold identifierType. destruct (keywords !! text) as [ty|] eqn:Hk; [|done].
  unfold keywords in Hk. apply elem_of_list_to_map_2 in Hk. simpl.
  repeat (apply elem_of_cons in Hk as [Hk|Hk]; [injection Hk as _ ->; discriminate|]).
  by apply elem_of_nil in Hk.
Qed.

Lemma emits_string lx : emits lx (string_ lx).
Proof.
  unfold string_. set (lx1 := loop _ _ lx).
  assert (tokens_ lx1 = tokens_ lx) as H1.
  { apply tokens_loop. intros lx0. by destruct (Ascii.eqb _ _). }
  destruct (isAtEnd lx1); [by left|].
  eapply emits_after; [exact H1|].
  eapply emits_after; [|by apply emits_addTokenLiteral]. done.
Qed.

Lemma emits_number lx : emits lx (number lx).
Proof.
  unfold number.
  assert (∀ lx0, tokens_ (loop (λ lx, isDigit (peek lx)) (λ lx, snd (advance lx)) lx0)
                 = tokens_ lx0) as Hd by (by apply tokens_loop).
  set (lx1 := loop _ _ lx).
  set (lx2 := if _ && _ then _ else lx1).
  assert (tokens_ lx2 = tokens_ lx) as H2.
  { unfold lx2. destruct (_ && _); [rewrite Hd; simpl|]; apply Hd. }
  eapply emits_after; [exact H2|by apply emits_addTokenLiteral].
Qed.

Lemma emits_identifier lx : emits lx (identifier lx).
Proof.
  unfold identifier.
  eapply emits_after; [|apply emits_addToken, identifierType_not_eof].
  by apply tokens_loop.
Qed.

Lemma emits_two c yes no lx :
  yes ≠ EOF_TOKEN → no ≠ EOF_TOKEN → emits lx (two c yes no lx).
Proof.
  intros Hy Hn. unfold two. pose proof (tokens_match c lx) as H.
  destruct (match_ c lx) as [[] lx']; simpl in H;
    (eapply emits_after; [exact H|by apply emits_addToken]).
Qed.

Lemma emits_on_match c lx (f g : Lexer.t → Lexer.t) :
  (∀ l, emits l (f l)) → (∀ l, emits l (g l)) →
  emits lx (let '(b, l) := match_ c lx in if b : bool then f l else g l).
Proof.
  intros Hf Hg. pose proof (tokens_match c lx) as H.
  destruct (match_ c lx) as [[] l]; simpl in H; eapply emits_after; eauto.
Qed.

Lemma scanToken_emits lx : emits lx (scanToken lx).
Proof.
  unfold scanToken.
  destruct (advance lx) as [c lx1] eqn:Hadv.
  assert (tokens_ lx1 = tokens_ lx) as H1 by (by inversion Hadv).
  eapply emits_after; [exact H1|]. clear Hadv H1.
  assert (emits lx1 (if Ascii.eqb c quote_char then string_ lx1
                     else if isDigit c then number lx1
                     else if isAlpha c then identifier lx1 else lx1)) as Hdefault.
  { destruct (Ascii.eqb c quote_char); [apply emits_string|].
    destruct (isDigit c); [apply emits_number|].
    destruct (isAlpha c); [apply emits_identifier|apply emits_refl]. }
  destruct c as [[] [] [] [] [] [] [] []];
    first [ exact Hdefault
          | by apply emits_addToken
          | by apply emits_two
          | apply emits_refl
          | by left
          | apply emits_on_match; intros l;
            first [ by apply emits_addToken | apply emits_refl
                  | left; by apply tokens_loop ] ].
Qed.

Lemma while_emits fuel cond body :
  (∀ lx, emits lx (body lx)) →
  ∀ lx, ∃ new,
    tokens_ (while fuel cond body lx) = tokens_ lx ++ new
    ∧ Forall (λ tk, type tk ≠ EOF_TOKEN) new
    ∧ (length new ≤ fuel)%nat.
Proof.
  intros Hbody. induction fuel as [|fuel IH]; intros lx; simpl.
  { exists []. by rewrite app_nil_r. }
  destruct (cond lx).
  - destruct (IH (body lx)) as (new & Hnew & Hne & Hlen).
    destruct (Hbody lx) as [Hb|(tk & Hb & Htk)]; rewrite Hb in Hnew.
    + exists new. split_and!; [done..|lia].
    + exists (tk :: new). rewrite <- app_assoc in Hnew.
      split_and!; [done|by constructor|simpl; lia].
  - exists []. rewrite app_nil_r. split_and!; [done|constructor|simpl; lia].
Qed.

(** *** The line counter *)

Lemma newlines_before_S (n : nat) : ∀ s,
  newlines_before (S n) s
  = newlines_before n s
    + match String.get n s with
      | Some c => if Ascii.eqb c newline_char then 1 else 0
      | None => 0
      end.
Proof.
  induction n as [|n IH]; intros [|c r]; try done.
  - simpl. lia.
  - change (newlines_before (S (S n)) (String c r))
      with ((if Ascii.eqb c newline_char then 1 else 0) + newlines_before (S n) r).
    rewrite IH. simpl. lia.
Qed.

Lemma newlines_before_ge (n : nat) : ∀ s,
  (String.length s ≤ n)%nat →
  newlines_before n s = newlines_before (String.length s) s.
Proof.
  induction n as [|n IH]; intros [|c r] Hlen; simpl in *; try done; [lia|].
  rewrite IH by lia. done.
Qed.

(** A step to the next character that counts it when it is a newline. *)
Lemma line_ok_step (lx lx' : Lexer.t) :
  source_ lx' = source_ lx →
  current_ lx' = S (current_ lx) →
  line_ lx' = line_ lx + (if Ascii.eqb (at_ lx (current_ lx)) newline_char then 1 else 0) →
  line_ok lx → line_ok lx'.
Proof.
  unfold line_ok, at_. intros -> -> -> ->. rewrite newlines_before_S.
  destruct (String.get _ _); simpl; lia.
Qed.

Lemma line_ok_advance lx :
  at_ lx (current_ lx) ≠ newline_char → line_ok lx → line_ok (snd (advance lx)).
Proof.
  intros Hc. apply line_ok_step; simpl; try done.
  destruct (Ascii.eqb_spec (at_ lx (current_ lx)) newline_char); [done|lia].
Qed.

Lemma line_ok_match c lx :
  c ≠ newline_char → line_ok lx → line_ok (snd (match_ c lx)).
Proof.
  intros Hc Hok. unfold match_. destruct (isAtEnd lx); [done|].
  destruct (Ascii.eqb_spec (at_ lx (current_ lx)) c) as [Heq|Hne]; simpl; [|done].
  revert Hok. apply line_ok_step; simpl; try done.
  destruct (Ascii.eqb_spec (at_ lx (current_ lx)) newline_char); [congruence|lia].
Qed.

Lemma line_ok_addTokenLiteral ty s lx : line_ok lx → line_ok (addTokenLiteral ty s lx).
Proof. done. Qed.

Lemma line_ok_addToken ty lx : line_ok lx → line_ok (addToken ty lx).
Proof. done. Qed.

Lemma line_ok_while fuel cond body :
  (∀ lx, cond lx = true → line_ok lx → line_ok (body lx)) →
  ∀ lx, line_ok lx → line_ok (while fuel cond body lx).
Proof.
  intros Hbody. induction fuel as [|fuel IH]; intros lx Hok; simpl; [done|].
  destruct (cond lx) eqn:Hc; [|done]. by apply IH, Hbody.
Qed.

Lemma peek_at lx : isAtEnd lx = false → peek lx = at_ lx (current_ lx).
Proof. unfold peek. by intros ->. Qed.

(** The loops of [number], [identifier] and of a comment only pass
    characters that are no newline. *)
Lemma line_ok_skip (p : ascii → bool) lx :
  p nul = false → p newline_char = false →
  line_ok lx →
  line_ok (loop (λ lx, p (peek lx)) (λ lx, snd (advance lx)) lx).
Proof.
  intros Hnul Hnl. apply line_ok_while. intros lx0 Hp. apply line_ok_advance.
  unfold peek in Hp. destruct (isAtEnd lx0); [congruence|].
  intros Heq. congruence.
Qed.

Lemma line_ok_string lx : line_ok lx → line_ok (string_ lx).
Proof.
  intros Hok. unfold string_.
  set (cond := λ lx : Lexer.t, negb (Ascii.eqb (peek lx) quote_char) && negb (isAtEnd lx)).
  set (body := λ lx : Lexer.t,
         snd (advance (if Ascii.eqb (peek lx) newline_char
                       then set_line (line_ lx + 1) lx else lx))).
  assert (line_ok (loop cond body lx)) as H1.
  { apply line_ok_while; [|done]. intros lx0 Hc.
    apply andb_true_iff in Hc as [_ Hend]. apply negb_true_iff in Hend.
    unfold body. rewrite (peek_at _ Hend).
    apply line_ok_step; [by destruct (Ascii.eqb _ _)..|].
    by destruct (Ascii.eqb _ _); simpl; lia. }
  assert (cond (loop cond body lx) = false) as Hstop.
  { apply loop_stops.
    - intros lx0 Hc. apply andb_true_iff in Hc as [_ Hend]. by apply negb_true_iff in Hend.
    - intros lx0. unfold body. by destruct (Ascii.eqb _ _). }
  set (lx1 := loop cond body lx) in *. unfold cond in Hstop.
  destruct (isAtEnd lx1) eqn:Hend; [done|].
  apply line_ok_addTokenLiteral, line_ok_advance; [|done].
  rewrite andb_true_r in Hstop.
  apply negb_false_iff, Ascii.eqb_eq in Hstop.
  rewrite <- (peek_at _ Hend), Hstop. done.
Qed.

Lemma line_ok_number lx : line_ok lx → line_ok (number lx).
Proof.
  intros Hok. unfold number. apply line_ok_addTokenLiteral.
  set (lx1 := loop _ _ lx).
  assert (line_ok lx1) as H1 by (by apply (line_ok_skip isDigit)).
  destruct (Ascii.eqb (peek lx1) ".") eqn:Hdot; simpl; [|done].
  destruct (isDigit (peekNext lx1)); [|done].
  apply (line_ok_skip isDigit); [done..|]. apply line_ok_advance; [|done].
  apply Ascii.eqb_eq in Hdot. unfold peek in Hdot.
  destruct (isAtEnd lx1); [done|]. by rewrite Hdot.
Qed.

Lemma line_ok_identifier lx : line_ok lx → line_ok (identifier lx).
Proof.
  intros Hok. unfold identifier. apply line_ok_addToken.
  by apply (line_ok_skip isAlphaNumeric).
Qed.

Lemma line_ok_two c yes no lx :
  c ≠ newline_char → line_ok lx → line_ok (two c yes no lx).
Proof.
  intros Hc Hok. unfold two. pose proof (line_ok_match c lx Hc Hok) as H.
  destruct (match_ c lx) as [b lx']. by apply line_ok_addToken.
Qed.

Lemma line_ok_on_match c lx (f g : Lexer.t → Lexer.t) :
  c ≠ newline_char →
  (∀ l, line_ok l → line_ok (f l)) → (∀ l, line_ok l → line_ok (g l)) →
  line_ok lx →
  line_ok (let '(b, l) := match_ c lx in if b : bool then f l else g l).
Proof.
  intros Hc Hf Hg Hok. pose proof (line_ok_match c lx Hc Hok) as H.
  destruct (match_ c lx) as [[] l]; auto.
Qed.

Lemma line_ok_comment lx :
  line_ok lx →
  line_ok (loop (λ lx, negb (Ascii.eqb (peek lx) newline_char) && negb (isAtEnd lx))
                (λ lx, snd (advance lx)) lx).
Proof.
  apply line_ok_while. intros lx0 Hc.
  apply andb_true_iff in Hc as [Hnl Hend]. apply negb_true_iff in Hend.
  apply line_ok_advance. rewrite <- (peek_at _ Hend).
  by apply negb_true_iff, Ascii.eqb_neq in Hnl.
Qed.

Lemma scanToken_line_ok lx : line_ok lx → line_ok (scanToken lx).
Proof.
  intros Hok. unfold scanToken, advance.
  set (lx1 := mk _ _ _ _ _ _).
  assert (at_ lx (current_ lx) ≠ newline_char → line_ok lx1) as Hc.
  { intros Hne. by apply (line_ok_advance lx). }
  assert (at_ lx (current_ lx) = newline_char →
          line_ok (mk (source_ lx1) (tokens_ lx1) (start_ lx1) (current_ lx1)
                      (line_ lx1 + 1) 1)) as Hn.
  { intros Heq. revert Hok. apply line_ok_step; simpl; try done. by rewrite Heq. }
  generalize dependent (at_ lx (current_ lx)). intros c Hc Hn.
  assert (c ≠ newline_char →
          line_ok (if Ascii.eqb c quote_char then string_ lx1
                   else if isDigit c then number lx1
                   else if isAlpha c then identifier lx1 else lx1)) as Hdefault.
  { intros Hne. specialize (Hc Hne). destruct (Ascii.eqb c quote_char); [by apply line_ok_string|].
    destruct (isDigit c); [by apply line_ok_number|].
    destruct (isAlpha c); [by apply line_ok_identifier|done]. }
  destruct c as [[] [] [] [] [] [] [] []];
    first [ by apply Hn
          | by apply Hdefault
          | apply line_ok_addToken; by apply Hc
          | apply line_ok_two; [done|by apply Hc]
          | by apply Hc
          | apply line_ok_on_match;
            [ done
            | intros l Hl; first [ by apply line_ok_addToken | by apply line_ok_comment ]
            | intros l Hl; first [ by apply line_ok_addToken | done ]
            | by apply Hc ] ].
Qed.

(** *** The range of the counters *)

Lemma newlines_before_bounds (n : nat) : ∀ s, 0 <= newlines_before n s <= Z.of_nat n.
Proof.
  induction n as [|n IH]; intros [|c r]; simpl; try lia.
  specialize (IH r). destruct (Ascii.eqb c newline_char); lia.
Qed.

Lemma counters_ok_advance lx :
  isAtEnd lx = false → counters_ok lx → counters_ok (snd (advance lx)).
Proof.
  unfold isAtEnd, counters_ok. intros Hend [Hcur Hcol]. apply Nat.leb_gt in Hend.
  simpl. split; lia.
Qed.

Lemma counters_ok_match c lx : counters_ok lx → counters_ok (snd (match_ c lx)).
Proof.
  intros Hok. unfold match_. destruct (isAtEnd lx) eqn:Hend; [done|].
  destruct (negb _); [done|]. by apply (counters_ok_advance lx).
Qed.

Lemma counters_ok_addTokenLiteral ty s lx :
  counters_ok lx → counters_ok (addTokenLiteral ty s lx).
Proof. done. Qed.

Lemma counters_ok_addToken ty lx : counters_ok lx → counters_ok (addToken ty lx).
Proof. done. Qed.

Lemma counters_ok_while fuel cond body :
  (∀ lx, cond lx = true → counters_ok lx → counters_ok (body lx)) →
  ∀ lx, counters_ok lx → counters_ok (while fuel cond body lx).
Proof.
  intros Hbody. induction fuel as [|fuel IH]; intros lx Hok; simpl; [done|].
  destruct (cond lx) eqn:Hc; [|done]. by apply IH, Hbody.
Qed.

(** The loops of [number] and [identifier] stop at the end of the source,
    where [peek] yields the null character. *)
Lemma counters_ok_skip (p : ascii → bool) lx :
  p nul = false →
  counters_ok lx →
  counters_ok (loop (λ lx, p (peek lx)) (λ lx, snd (advance lx)) lx).
Proof.
  intros Hnul. apply counters_ok_while. intros lx0 Hp. apply counters_ok_advance.
  unfold peek in Hp. destruct (isAtEnd lx0); [congruence|done].
Qed.

Lemma counters_ok_string lx : counters_ok lx → counters_ok (string_ lx).
Proof.
  intros Hok. unfold string_.
  set (lx1 := loop _ _ lx).
  assert (counters_ok lx1) as H1.
  { apply counters_ok_while; [|done]. intros lx0 Hc.
    apply andb_true_iff in Hc as [_ Hend]. apply negb_true_iff in Hend.
    intros H0. apply counters_ok_advance; by destruct (Ascii.eqb _ _). }
  destruct (isAtEnd lx1) eqn:Hend; [done|].
  by apply counters_ok_addTokenLiteral, counters_ok_advance.
Qed.

Lemma counters_ok_number lx : counters_ok lx → counters_ok (number lx).
Proof.
  intros Hok. unfold number. apply counters_ok_addTokenLiteral.
  set (lx1 := loop _ _ lx).
  assert (counters_ok lx1) as H1 by (by apply (counters_ok_skip isDigit)).
  destruct (Ascii.eqb (peek lx1) ".") eqn:Hdot; simpl; [|done].
  destruct (isDigit (peekNext lx1)); [|done].
  apply (counters_ok_skip isDigit); [done|]. apply counters_ok_advance; [|done].
  apply Ascii.eqb_eq in Hdot. unfold peek in Hdot.
  by destruct (isAtEnd lx1).
Qed.

Lemma counters_ok_identifier lx : counters_ok lx → counters_ok (identifier lx).
Proof.
  intros Hok. unfold identifier. apply counters_ok_addToken.
  by apply (counters_ok_skip isAlphaNumeric).
Qed.

Lemma counters_ok_two c yes no lx : counters_ok lx → counters_ok (two c yes no lx).
Proof.
  intros Hok. unfold two. pose proof (counters_ok_match c lx Hok) as H.
  destruct (match_ c lx) as [b lx']. by apply counters_ok_addToken.
Qed.

Lemma counters_ok_on_match c lx (f g : Lexer.t → Lexer.t) :
  (∀ l, counters_ok l → counters_ok (f l)) → (∀ l, counters_ok l → counters_ok (g l)) →
  counters_ok lx →
  counters_ok (let '(b, l) := match_ c lx in if b : bool then f l else g l).
Proof.
  intros Hf Hg Hok. pose proof (counters_ok_match c lx Hok) as H.
  destruct (match_ c lx) as [[] l]; auto.
Qed.

Lemma counters_ok_comment lx :
  counters_ok lx →
  counters_ok (loop (λ lx, negb (Ascii.eqb (peek lx) newline_char) && negb (isAtEnd lx))
                    (λ lx, snd (advance lx)) lx).
Proof.
  apply counters_ok_while. intros lx0 Hc.
  apply andb_true_iff in Hc as [_ Hend]. apply negb_true_iff in Hend.
  by apply counters_ok_advance.
Qed.

Lemma scanToken_counters_ok lx :
  isAtEnd lx = false → counters_ok lx → counters_ok (scanToken lx).
Proof.
  intros Hend Hok. pose proof (counters_ok_advance lx Hend Hok) as H1.
  unfold scanToken, advance in *. simpl in H1.
  set (lx1 := mk _ _ _ _ _ _) in *.
  assert (counters_ok (mk (source_ lx1) (tokens_ lx1) (start_ lx1) (current_ lx1)
                          (line_ lx1 + 1) 1)) as Hn.
  { destruct H1 as [Hcur Hcol]. split; simpl in *; lia. }
  generalize (at_ lx (current_ lx)). intros c.
  assert (counters_ok (if Ascii.eqb c quote_char then string_ lx1
                       else if isDigit c then number lx1
                       else if isAlpha c then identifier lx1 else lx1)) as Hdefault.
  { destruct (Ascii.eqb c quote_char); [by apply counters_ok_string|].
    destruct (isDigit c); [by apply counters_ok_number|].
    destruct (isAlpha c); [by apply counters_ok_identifier|done]. }
  destruct c as [[] [] [] [] [] [] [] []];
    first [ exact Hdefault
          | exact Hn
          | exact H1
          | by apply counters_ok_addToken
          | by apply counters_ok_two
          | apply counters_ok_on_match;
            [ intros l Hl; first [ by apply counters_ok_addToken
                                 | by apply counters_ok_comment ]
            | intros l Hl; first [ by apply counters_ok_addToken | done ]
            | done ] ].
Qed.

End LexerMore.

Section Scan.
Import Lexer LexerFacts LexerMore.

(** X22.  The token list of a source text ends with the end-of-input token, which
    occurs nowhere else in it, and has at most one token per character
    before it. *)
Theorem scan_ends_with_the_only_eof (source : string) :
  ∃ tokens l c,
    scan source = tokens ++ [mkToken EOF_TOKEN "" l c]
    ∧ Forall (λ tk, type tk ≠ EOF_TOKEN) tokens
    ∧ (length tokens ≤ String.length source)%nat.
Proof.
  unfold scan, scanTokens, loop.
  destruct (while_emits (String.length (source_ (new source)))
              (λ lx, negb (isAtEnd lx))
              (λ lx, scanToken (mk (source_ lx) (tokens_ lx) (current_ lx) (current_ lx)
                                   (line_ lx) (column_ lx)))
              (λ lx, scanToken_emits (mk _ _ _ _ _ _)) (new source))
    as (tokens & Htok & Hne & Hlen).
  exists tokens. eexists _, _. rewrite Htok. done.
Qed.

(** X23.  For a source of less than 2^31 - 1 characters, for which the
    [int] counters of the scanner cannot overflow, the line of the
    end-of-input token is one more than the number of newline characters of
    the source, wherever they stand: between tokens, after a comment, inside
    a string literal, closed or not.  Its line and its column are in the
    range of an [int]. *)
Theorem eof_line_counts_the_newlines (source : string) :
  Z.of_nat (String.length source) < 2^31 - 1 →
  ∃ tokens l c,
    scan source = tokens ++ [mkToken EOF_TOKEN "" l c]
    ∧ l = 1 + newlines_before (String.length source) source
    ∧ 1 <= l < 2^31
    ∧ 1 <= c < 2^31.
Proof.
  intros Hlen. unfold scan, scanTokens.
  set (body := λ lx : Lexer.t,
         scanToken (mk (source_ lx) (tokens_ lx) (current_ lx) (current_ lx)
                       (line_ lx) (column_ lx))).
  set (final := loop _ body (new source)).
  assert (line_ok final) as Hok.
  { apply line_ok_while; [|done]. intros lx _ Hlx. by apply scanToken_line_ok. }
  assert (counters_ok final) as [Hcur Hcol].
  { apply counters_ok_while; [|by split; simpl; lia]. intros lx Hc Hlx.
    apply negb_true_iff in Hc. by apply scanToken_counters_ok. }
  assert (source_ final = source) as Hsrc.
  { refine (proj1 (later_loop (λ lx, negb (isAtEnd lx)) body _ (new source))).
    intros lx. destruct (scanToken_progress (mk (source_ lx) (tokens_ lx) (current_ lx)
                           (current_ lx) (line_ lx) (column_ lx))) as [Hs Hcur'].
    unfold body. split; simpl in *; [done|lia]. }
  pose proof (scanTokens_reaches_the_end (new source)) as Hend.
  fold body final in Hend. unfold isAtEnd in Hend. apply Nat.leb_le in Hend.
  rewrite Hsrc in Hcur, Hend.
  assert (line_ final = 1 + newlines_before (String.length source) source) as Hline.
  { rewrite Hok, Hsrc. f_equal. by apply newlines_before_ge. }
  pose proof (newlines_before_bounds (String.length source) source) as Hnl.
  exists (tokens_ final), (line_ final), (column_ final).
  split; [done|]. split; [done|]. split; lia.
Qed.

End Scan.

(** A source with a newline between two tokens and one inside a string
    literal that is not closed. *)
Lemma eof_line_counts_the_newlines_witness :
  let source := "x" +:+ newline +:+ dquote +:+ "y" +:+ newline +:+ "z" in
  Z.of_nat (String.length source) < 2^31 - 1
  ∧ Lexer.newlines_before (String.length source) source = 2
  ∧ ∃ tokens l c,
      Lexer.scan source = tokens ++ [mkToken EOF_TOKEN "" l c]
      ∧ l = 1 + Lexer.newlines_before (String.length source) source
      ∧ 1 <= l < 2^31
      ∧ 1 <= c < 2^31.
Proof.
  intros source.
  assert (Z.of_nat (String.length source) < 2^31 - 1) as Hlen by (vm_compute; reflexivity).
  split; [exact Hlen|]. split; [reflexivity|].
  apply (eof_line_counts_the_newlines source Hlen).
Defined.
